(** * gnmireverse/client: a shallow embedding of main.go

    The client bridges a gNMI Subscribe stream from a target to a
    gNMIReverse Publish stream towards a collector.  This file models
    - [newTLSConfig], the credential builder, with its file accesses;
    - the start-up part of [main] (flags, credentials, dialing);
    - one retry iteration: the [publish] and [subscribe] goroutines run
      under an [errgroup] context and share an unbuffered channel;
    - the retry loop of [main]. *)

From Stdlib Require Import String List Bool Arith Lia.
Import ListNotations.
Open Scope string_scope.

(** ** Go values *)

(** Go [error] values that the client produces or receives. *)
Inductive GoErr : Type :=
| Canceled                                (** context.Canceled *)
| ErrMsg (msg : string)                   (** fmt.Errorf(msg) with no operand *)
| Errorf (format : string) (arg : GoErr)  (** fmt.Errorf(format, arg) *)
| ErrPath (op path : string)              (** *os.PathError *)
| ErrStatus (code : nat)                  (** a gRPC status error *)
| ErrEOF.                                 (** io.EOF *)

(** A Go [error]: [None] is [nil]. *)
Definition error := option GoErr.

Definition bytes := list Byte.byte.

(** ** gNMI messages (github.com/openconfig/gnmi/proto/gnmi) *)

Record PathElem := mkPathElem { pe_name : string; pe_key : list (string * string) }.

Record Path := mkPath {
  path_origin : string;
  path_elem : list PathElem;
  path_target : string
}.

(** [&gnmi.Path{}]: every field at its zero value. *)
Definition zero_path : Path := mkPath "" [] "".

Inductive SubscriptionMode := TARGET_DEFINED | ON_CHANGE | SAMPLE.

Record Subscription := mkSubscription {
  sub_path : Path;
  sub_mode : SubscriptionMode;
  sub_sample_interval : nat
}.

Record SubscriptionList := mkSubscriptionList {
  sl_prefix : option Path;
  sl_subscription : list Subscription
}.

Inductive SubscribeRequest :=
| SubscribeRequest_Subscribe (s : SubscriptionList)
| SubscribeRequest_Poll
| SubscribeRequest_Aliases.

(** gRPC outgoing metadata, as built by [metadata.Pairs]. *)
Definition MD := list (string * list string).

(** ** Credential builder: [newTLSConfig] *)

Section Credentials.

(** The file system and the crypto/x509 and crypto/tls parsers. *)
Variable Certificate : Type.
Variable fs : string -> option bytes.            (** ioutil.ReadFile contents *)
Variable pem_certs : bytes -> list Certificate.   (** certificates found in PEM data *)
Variable x509_key_pair : bytes -> bytes -> option Certificate.  (** tls.X509KeyPair *)

Definition CertPool := list Certificate.

Record TLSConfig := mkTLSConfig {
  InsecureSkipVerify : bool;
  RootCAs : option CertPool;         (** [None]: the host's root CA set *)
  Certificates : list Certificate
}.

(** [tls.Config{}] *)
Definition tls_Config : TLSConfig := mkTLSConfig false None [].

Inductive DialOption :=
| WithInsecure
| WithTransportCredentials (c : TLSConfig).

(** The local file accesses the builder performs. *)
Inductive fileop :=
| ReadFile (path : string)
| LoadX509KeyPair (certFile keyFile : string).

(** A writer/error monad: the log of file accesses, then an error or a value. *)
Definition IO (A : Type) : Type := (list fileop * (GoErr + A))%type.

Definition io_ret {A} (a : A) : IO A := ([], inr a).
Definition io_fail {A} (e : GoErr) : IO A := ([], inl e).
Definition io_bind {A B} (m : IO A) (k : A -> IO B) : IO B :=
  match m with
  | (l, inl e) => (l, inl e)
  | (l, inr a) => let (l', r) := k a in ((l ++ l')%list, r)
  end.

Local Notation "x <- m ;; k" := (io_bind m (fun x => k))
  (at level 61, m at next level, right associativity).

(** ioutil.ReadFile *)
Definition readFile (p : string) : IO bytes :=
  ([ReadFile p], match fs p with Some b => inr b | None => inl (ErrPath "open" p) end).

(** tls.LoadX509KeyPair *)
Definition loadX509KeyPair (certFile keyFile : string) : IO Certificate :=
  ([LoadX509KeyPair certFile keyFile],
   match fs certFile, fs keyFile with
   | None, _ => inl (ErrPath "open" certFile)
   | _, None => inl (ErrPath "open" keyFile)
   | Some c, Some k =>
       match x509_key_pair c k with
       | Some cert => inr cert
       | None => inl (ErrMsg "tls: failed to find any PEM data")
       end
   end).

(** x509 CertPool.AppendCertsFromPEM: reports whether any certificate was added. *)
Definition appendCertsFromPEM (cp : CertPool) (b : bytes) : CertPool * bool :=
  let cs := pem_certs b in
  ((cp ++ cs)%list, match cs with [] => false | _ => true end).

Definition newTLSConfig (useTLS skipVerify : bool) (certFile keyFile caFile : string)
  : IO DialOption :=
  if negb useTLS then io_ret WithInsecure else
  let tlsConfig := tls_Config in
  tlsConfig <-
    (if skipVerify then
       io_ret (mkTLSConfig true (RootCAs tlsConfig) (Certificates tlsConfig))
     else if negb (String.eqb caFile "") then
       b <- readFile caFile;;
       let '(cp, ok) := appendCertsFromPEM [] b in
       if negb ok then io_fail (ErrMsg "credentials: failed to append certificates")
       else io_ret (mkTLSConfig (InsecureSkipVerify tlsConfig) (Some cp)
                                (Certificates tlsConfig))
     else io_ret tlsConfig);;
  tlsConfig <-
    (if negb (String.eqb certFile "") then
       if String.eqb keyFile "" then
         io_fail (ErrMsg "please provide both -collector_certfile and -collector_keyfile")
       else
         cert <- loadX509KeyPair certFile keyFile;;
         io_ret (mkTLSConfig (InsecureSkipVerify tlsConfig) (RootCAs tlsConfig) [cert])
     else io_ret tlsConfig);;
  io_ret (WithTransportCredentials tlsConfig).

(** ** Start-up of [main]: flags, credentials, dialing *)

Record Flags := mkFlags {
  target_addr : string;
  collector_addr : string;
  target_value : string;
  subscribe_paths : list Path;
  username : string;
  password : string;
  source_addr : string;
  collector_certfile : string;
  collector_keyfile : string;
  collector_cafile : string;
  collector_tls : bool;
  collector_tls_skipverify : bool
}.

(** Outcome of [grpc.Dial] for an address (the network). *)
Variable dial : string -> error.

Inductive effect :=
| EffFile (op : fileop)
| EffDial (addr : string)
| EffFatal (e : GoErr).       (** glog.Fatal: the process exits *)

(** The statements of [main] before its [for] loop.  The boolean is [true]
    when the loop is entered. *)
Definition main_startup (f : Flags) : list effect * bool :=
  let (ops, r) := newTLSConfig (collector_tls f) (collector_tls_skipverify f)
                    (collector_certfile f) (collector_keyfile f) (collector_cafile f) in
  let effs := map EffFile ops in
  match r with
  | inl err => ((effs ++ [EffFatal err])%list, false)
  | inr _ =>
      match dial (collector_addr f) with
      | Some err =>
          ((effs ++ [EffDial (collector_addr f);
                     EffFatal (Errorf "error dialing destination %q: %s" err)])%list, false)
      | None =>
          match dial (target_addr f) with
          | Some err =>
              ((effs ++ [EffDial (collector_addr f); EffDial (target_addr f);
                         EffFatal (Errorf "error dialing target %q: %s" err)])%list, false)
          | None =>
              ((effs ++ [EffDial (collector_addr f); EffDial (target_addr f)])%list, true)
          end
      end
  end.

End Credentials.

(** ** Request construction in [subscribe] *)

(** The [subList] and [request] values built by [subscribe]. *)
Definition subscribe_request (target : string) (paths : list Path) : SubscribeRequest :=
  let subList := mkSubscriptionList (Some (mkPath "" [] target)) [] in
  let subList :=
    fold_left (fun sl p =>
                 mkSubscriptionList (sl_prefix sl)
                   (sl_subscription sl ++ [mkSubscription p TARGET_DEFINED 0])%list)
              paths subList in
  SubscribeRequest_Subscribe subList.

(** strings.ToLower on ASCII, as applied to keys by [metadata.Pairs]. *)
Definition ascii_lower (c : Ascii.ascii) : Ascii.ascii :=
  let n := Ascii.nat_of_ascii c in
  if (Nat.leb 65 n && Nat.leb n 90)%nat then Ascii.ascii_of_nat (n + 32)%nat else c.

Fixpoint lower (s : string) : string :=
  match s with
  | EmptyString => EmptyString
  | String c r => String (ascii_lower c) (lower r)
  end.

Fixpoint md_add (md : MD) (k v : string) : MD :=
  match md with
  | [] => [(k, [v])]
  | (k', vs) :: r => if String.eqb k k' then (k', (vs ++ [v])%list) :: r
                     else (k', vs) :: md_add r k v
  end.

Fixpoint pairs_aux (md : MD) (kv : list string) : MD :=
  match kv with
  | k :: v :: r => pairs_aux (md_add md (lower k) v) r
  | _ => md
  end.

(** metadata.Pairs *)
Definition metadata_Pairs (kv : list string) : MD := pairs_aux [] kv.

(** A context: the cancellation scope it belongs to and its outgoing metadata. *)
Record Ctx := mkCtx { ctx_scope : nat; ctx_md : option MD }.

(** The context [subscribe] opens its stream with: [metadata.NewOutgoingContext]
    on the errgroup context when [username != ""]. *)
Definition subscribe_ctx (scope : nat) (username password : string) : Ctx :=
  if negb (String.eqb username "") then
    mkCtx scope (Some (metadata_Pairs ["username"; username; "password"; password]))
  else mkCtx scope None.

(** The context [publish] opens its stream with: the errgroup context. *)
Definition publish_ctx (scope : nat) : Ctx := mkCtx scope None.

(** ** One retry iteration: [publish] and [subscribe] under an errgroup *)

Section Iteration.

(** [*gnmi.SubscribeResponse]: the bridge never looks inside one. *)
Context {M : Type}.

(** Program points of the [subscribe] goroutine. *)
Inductive SubPC :=
| SubStart                  (** before client.Subscribe(ctx) *)
| SubSendReq                (** before stream.Send(request) *)
| SubRecv                   (** before stream.Recv() in the loop *)
| SubHand (resp : M)        (** in the select: <-ctx.Done() or c <- resp *)
| SubDone (r : error).      (** returned r *)

(** Program points of the [publish] goroutine. *)
Inductive PubPC :=
| PubStart                  (** before client.Publish(ctx) *)
| PubSelect                 (** in the select: <-ctx.Done() or response := <-c *)
| PubSend (m : M)           (** before stream.Send(response) *)
| PubDone (r : error).      (** returned r *)

(** The state of one iteration of the [for] loop of [main]. *)
Record gstate := mkG {
  g_scope : nat;         (** identity of this iteration's errgroup context and channel c *)
  g_sub : SubPC;
  g_pub : PubPC;
  g_cancelled : bool;    (** ctx.Done() is closed *)
  g_err : error          (** the errgroup's first error, returned by eg.Wait() *)
}.

(** eg, ctx := errgroup.WithContext(...); c := make(chan ...); eg.Go(...) twice *)
Definition init (k : nat) : gstate := mkG k SubStart PubStart false None.

(** What the scheduler and the network decide at a step. *)
Inductive choice :=
| SchedSub (res : error)          (** subscribe completes Subscribe(ctx) or Send(request) *)
| SchedRecv (res : M + GoErr)     (** subscribe completes stream.Recv() *)
| SchedSubCancel                  (** subscribe's select takes <-ctx.Done() *)
| SchedHandoff                    (** the rendezvous c <- resp / response := <-c *)
| SchedPub (res : error)          (** publish completes Publish(ctx) or stream.Send *)
| SchedPubCancel.                 (** publish's select takes <-ctx.Done() *)

(** What can be observed at a step. *)
Inductive event :=
| ESubOpen (ctx : Ctx) (res : error)
| ESubSend (req : SubscribeRequest) (res : error)
| ESubRecv (res : M + GoErr)
| ESubCtxDone
| EHandoff (m : M)
| EPubOpen (ctx : Ctx) (res : error)
| EPubSend (m : M) (res : error)
| EPubCtxDone.

Definition set_sub (s : gstate) (p : SubPC) : gstate :=
  mkG (g_scope s) p (g_pub s) (g_cancelled s) (g_err s).
Definition set_pub (s : gstate) (p : PubPC) : gstate :=
  mkG (g_scope s) (g_sub s) p (g_cancelled s) (g_err s).

(** The errgroup's wrapper around a goroutine that returned [r]: the first
    non-nil error is kept and cancels the context. *)
Definition eg_return (s : gstate) (r : error) : gstate :=
  match r with
  | None => s
  | Some e =>
      mkG (g_scope s) (g_sub s) (g_pub s) true
          (match g_err s with None => Some e | Some e0 => Some e0 end)
  end.

(** ctx.Err() *)
Definition ctx_Err (s : gstate) : error :=
  if g_cancelled s then Some Canceled else None.

(** subscribe returns r *)
Definition sub_return (s : gstate) (r : error) : gstate := eg_return (set_sub s (SubDone r)) r.
(** publish returns r *)
Definition pub_return (s : gstate) (r : error) : gstate := eg_return (set_pub s (PubDone r)) r.

Definition step (f : Flags) (s : gstate) (ch : choice) : option (gstate * event) :=
  let sctx := subscribe_ctx (g_scope s) (username f) (password f) in
  let request := subscribe_request (target_value f) (subscribe_paths f) in
  match ch, g_sub s, g_pub s with
  | SchedSub None, SubStart, _ => Some (set_sub s SubSendReq, ESubOpen sctx None)
  | SchedSub (Some err), SubStart, _ =>
      Some (sub_return s (Some (Errorf "error from Subscribe: %s" err)), ESubOpen sctx (Some err))
  | SchedSub None, SubSendReq, _ => Some (set_sub s SubRecv, ESubSend request None)
  | SchedSub (Some err), SubSendReq, _ =>
      Some (sub_return s (Some (Errorf "error sending SubscribeRequest: %s" err)),
            ESubSend request (Some err))
  | SchedRecv (inl resp), SubRecv, _ => Some (set_sub s (SubHand resp), ESubRecv (inl resp))
  | SchedRecv (inr err), SubRecv, _ =>
      Some (sub_return s (Some (Errorf "error from Subscribe.Recv: %s" err)), ESubRecv (inr err))
  | SchedSubCancel, SubHand _, _ =>
      if g_cancelled s then Some (sub_return s (ctx_Err s), ESubCtxDone) else None
  | SchedHandoff, SubHand resp, PubSelect =>
      Some (set_pub (set_sub s SubRecv) (PubSend resp), EHandoff resp)
  | SchedPub None, _, PubStart => Some (set_pub s PubSelect, EPubOpen (publish_ctx (g_scope s)) None)
  | SchedPub (Some err), _, PubStart =>
      Some (pub_return s (Some (Errorf "error from Publish: %s" err)),
            EPubOpen (publish_ctx (g_scope s)) (Some err))
  | SchedPub None, _, PubSend m => Some (set_pub s PubSelect, EPubSend m None)
  | SchedPub (Some err), _, PubSend m =>
      Some (pub_return s (Some (Errorf "error from Publish.Send: %s" err)), EPubSend m (Some err))
  | SchedPubCancel, _, PubSelect =>
      if g_cancelled s then Some (pub_return s (ctx_Err s), EPubCtxDone) else None
  | _, _, _ => None
  end.

(** A schedule of choices from a state; [None] if some choice is not enabled. *)
Fixpoint run (f : Flags) (s : gstate) (chs : list choice) : option (gstate * list event) :=
  match chs with
  | [] => Some (s, [])
  | ch :: chs' =>
      match step f s ch with
      | None => None
      | Some (s1, ev) =>
          match run f s1 chs' with
          | None => None
          | Some (s2, evs) => Some (s2, ev :: evs)
          end
      end
  end.

(** eg.Wait() returns once both goroutines have returned. *)
Definition both_done (s : gstate) : Prop :=
  (exists r, g_sub s = SubDone r) /\ (exists r, g_pub s = PubDone r).

(** Messages received from the target, in order. *)
Fixpoint recv_of (evs : list event) : list M :=
  match evs with
  | [] => []
  | ESubRecv (inl m) :: r => m :: recv_of r
  | _ :: r => recv_of r
  end.

(** Messages sent to the collector successfully, in order. *)
Fixpoint sent_of (evs : list event) : list M :=
  match evs with
  | [] => []
  | EPubSend m None :: r => m :: sent_of r
  | _ :: r => sent_of r
  end.

(** Messages publish passed to stream.Send, whatever the outcome. *)
Fixpoint attempted_of (evs : list event) : list M :=
  match evs with
  | [] => []
  | EPubSend m _ :: r => m :: attempted_of r
  | _ :: r => attempted_of r
  end.

(** Messages handed from subscribe to publish over the channel. *)
Fixpoint handoffs_of (evs : list event) : list M :=
  match evs with
  | [] => []
  | EHandoff m :: r => m :: handoffs_of r
  | _ :: r => handoffs_of r
  end.

(** Requests subscribe sent on its stream. *)
Fixpoint requests_of (evs : list event) : list SubscribeRequest :=
  match evs with
  | [] => []
  | ESubSend req _ :: r => req :: requests_of r
  | _ :: r => requests_of r
  end.

(** The message publish holds for stream.Send. *)
Definition pub_holding (s : gstate) : list M :=
  match g_pub s with PubSend m => [m] | _ => [] end.

(** Messages received from the target and not yet sent to the collector. *)
Definition inflight (s : gstate) : list M :=
  (pub_holding s ++ match g_sub s with SubHand m => [m] | _ => [] end)%list.

(** Both goroutines wait on the channel and nothing is in flight. *)
Definition quiescent (s : gstate) : Prop :=
  g_sub s = SubRecv /\ g_pub s = PubSelect.

(** Events that are actions of the publish goroutine. *)
Definition publish_action (ev : event) : bool :=
  match ev with
  | EPubOpen _ _ | EHandoff _ | EPubSend _ _ | EPubCtxDone => true
  | _ => false
  end.

(** ** The retry loop of [main] *)

(** A run of the [for] loop: per iteration, its number, its events and what
    glog.Errorf logged ([None]: nothing); [LExit] would be a process exit. *)
CoInductive loop_trace :=
| LIter (k : nat) (evs : list event) (logged : error) (next : loop_trace)
| LExit (e : GoErr).

(** Iteration [k] starts from a fresh context and channel ([init k]), runs until
    eg.Wait() returns, logs the error and the loop goes on with iteration [k+1]. *)
CoInductive main_loop (f : Flags) : nat -> loop_trace -> Prop :=
| main_loop_iter k chs s evs t :
    run f (init k) chs = Some (s, evs) ->
    both_done s ->
    main_loop f (S k) t ->
    main_loop f k (LIter k evs (g_err s) t).

Inductive loop_exits : loop_trace -> Prop :=
| exits_now e : loop_exits (LExit e)
| exits_later k evs l t : loop_exits t -> loop_exits (LIter k evs l t).

(** The number and the logged error of the n-th iteration of a run. *)
Fixpoint iter_at (n : nat) (t : loop_trace) : option (nat * error) :=
  match t, n with
  | LIter k _ l _, O => Some (k, l)
  | LIter _ _ _ t', S n' => iter_at n' t'
  | LExit _, _ => None
  end.

(** The values [subscribe] can return. *)
Definition sub_exit_ok (r : error) : Prop :=
  r = Some Canceled \/
  exists e, r = Some (Errorf "error from Subscribe: %s" e) \/
            r = Some (Errorf "error sending SubscribeRequest: %s" e) \/
            r = Some (Errorf "error from Subscribe.Recv: %s" e).

(** The values [publish] can return. *)
Definition pub_exit_ok (r : error) : Prop :=
  r = Some Canceled \/
  exists e, r = Some (Errorf "error from Publish: %s" e) \/
            r = Some (Errorf "error from Publish.Send: %s" e).

(** The contexts the two streams are opened with, and the request subscribe sends. *)
Definition event_ok (f : Flags) (k : nat) (ev : event) : Prop :=
  match ev with
  | ESubOpen c _ => c = subscribe_ctx k (username f) (password f)
  | EPubOpen c _ => c = publish_ctx k
  | ESubSend req _ => req = subscribe_request (target_value f) (subscribe_paths f)
  | _ => True
  end.

(** A schedule in which both streams fail to open at once. *)
Definition open_failures : list choice := [SchedPub (Some ErrEOF); SchedSub (Some ErrEOF)].

(** The loop run in which every iteration ends with [open_failures]. *)
CoFixpoint restart_trace (f : Flags) (k : nat) : loop_trace :=
  LIter k [EPubOpen (publish_ctx k) (Some ErrEOF);
           ESubOpen (subscribe_ctx k (username f) (password f)) (Some ErrEOF)]
        (Some (Errorf "error from Publish: %s" ErrEOF))
        (restart_trace f (S k)).

Definition loop_trace_unfold (t : loop_trace) : loop_trace :=
  match t with
  | LIter k evs l t' => LIter k evs l t'
  | LExit e => LExit e
  end.

(** Invariants of an iteration, over the events so far and the state. *)
Definition exit_inv (s : gstate) : Prop :=
  (forall r, g_sub s = SubDone r -> sub_exit_ok r /\ g_cancelled s = true) /\
  (forall r, g_pub s = PubDone r -> pub_exit_ok r /\ g_cancelled s = true) /\
  (g_cancelled s = true -> g_err s <> None).

Definition relay_inv (tr : list event) (s : gstate) : Prop :=
  g_cancelled s = false -> recv_of tr = (sent_of tr ++ inflight s)%list.

Definition forward_inv (tr : list event) (s : gstate) : Prop :=
  (attempted_of tr ++ pub_holding s)%list = handoffs_of tr.

Definition request_inv (f : Flags) (tr : list event) (s : gstate) : Prop :=
  let req := subscribe_request (target_value f) (subscribe_paths f) in
  (requests_of tr = [] \/ requests_of tr = [req]) /\
  (g_sub s = SubStart \/ g_sub s = SubSendReq -> requests_of tr = []) /\
  (g_sub s = SubRecv \/ (exists m, g_sub s = SubHand m) -> requests_of tr = [req]).

Definition events_inv (f : Flags) (k : nat) (tr : list event) (s : gstate) : Prop :=
  g_scope s = k /\ Forall (event_ok f k) tr.

End Iteration.

(** ** The [-subscribe] flag value: [multiPath] *)

Section MultiPath.

(** gnmilib.ParseGNMIElements(gnmilib.SplitPath(s)) and gnmilib.StrPath, from
    the goarista gnmi package. *)
Variable parseGNMIPath : string -> GoErr + Path.
Variable StrPath : Path -> string.

Record multiPath := mkMultiPath { mp_p : list Path }.

(** strings.Join *)
Fixpoint strings_Join (elems : list string) (sep : string) : string :=
  match elems with
  | [] => ""
  | [x] => x
  | x :: r => x ++ sep ++ strings_Join r sep
  end.

(** multiPath.String (pointer receiver); [None] is a nil receiver. *)
Definition multiPath_String (m : option multiPath) : string :=
  match m with
  | None => ""
  | Some m => strings_Join (map StrPath (mp_p m)) ", "
  end.

(** multiPath.Set (pointer receiver): the receiver after the call, and the returned error. *)
Definition multiPath_Set (m : multiPath) (s : string) : multiPath * error :=
  match parseGNMIPath s with
  | inl err => (m, Some err)
  | inr gnmiPath => (mkMultiPath (mp_p m ++ [gnmiPath])%list, None)
  end.

(** flag.Parse on repeated [-subscribe] values: Set is called on each value in
    order, and parsing stops at the first error (flag.ExitOnError then exits). *)
Fixpoint multiPath_SetAll (m : multiPath) (vals : list string) : multiPath * error :=
  match vals with
  | [] => (m, None)
  | v :: r =>
      match multiPath_Set m v with
      | (m', Some err) => (m', Some err)
      | (m', None) => multiPath_SetAll m' r
      end
  end.

End MultiPath.

(** ** More invariants of an iteration *)

Section IterationMore.

Context {M : Type}.

(** The message subscribe holds for the channel send. *)
Definition sub_holding (s : @gstate M) : list M :=
  match g_sub s with SubHand m => [m] | _ => [] end.

(** The wrapped stream errors the two goroutines return. *)
Definition stream_error (r : error) : Prop :=
  exists e, r = Some (Errorf "error from Subscribe: %s" e) \/
            r = Some (Errorf "error sending SubscribeRequest: %s" e) \/
            r = Some (Errorf "error from Subscribe.Recv: %s" e) \/
            r = Some (Errorf "error from Publish: %s" e) \/
            r = Some (Errorf "error from Publish.Send: %s" e).

(** The errgroup's error is the one returned by a goroutine, a stream error. *)
Definition first_error_inv (s : @gstate M) : Prop :=
  g_err s = None \/
  ((g_sub s = SubDone (g_err s) \/ g_pub s = PubDone (g_err s)) /\ stream_error (g_err s)).

(** Subscribe receives again only once it has handed the last message over. *)
Definition backpressure_inv (tr : list (@event M)) (s : @gstate M) : Prop :=
  exists x, recv_of tr = (handoffs_of tr ++ x)%list /\ length x <= 1 /\
            (x = sub_holding s \/ exists r, g_sub s = SubDone r).

(** A message passed to stream.Send and not sent is the last thing publish did. *)
Definition send_loss_inv (tr : list (@event M)) (s : @gstate M) : Prop :=
  exists y, attempted_of tr = (sent_of tr ++ y)%list /\ length y <= 1 /\
            (y <> [] -> exists r, g_pub s = PubDone r).

(** Which successful stream calls the goroutines have made, by program point. *)
Definition phase_inv (f : Flags) (tr : list (@event M)) (s : @gstate M) : Prop :=
  (g_sub s = SubSendReq \/ g_sub s = SubRecv \/ (exists m, g_sub s = SubHand m) ->
     exists c, In (ESubOpen c None) tr) /\
  (g_sub s = SubRecv \/ (exists m, g_sub s = SubHand m) ->
     In (ESubSend (subscribe_request (target_value f) (subscribe_paths f)) None) tr) /\
  (g_pub s = PubSelect \/ (exists m, g_pub s = PubSend m) ->
     exists c, In (EPubOpen c None) tr).

(** The stream protocol order, on the events of an iteration. *)
Definition protocol_order (f : Flags) (tr : list (@event M)) : Prop :=
  let req := subscribe_request (target_value f) (subscribe_paths f) in
  (forall pre post r, tr = (pre ++ ESubRecv r :: post)%list -> In (ESubSend req None) pre) /\
  (forall pre post q r, tr = (pre ++ ESubSend q r :: post)%list ->
     exists c, In (ESubOpen c None) pre) /\
  (forall pre post m, tr = (pre ++ EHandoff m :: post)%list ->
     In (ESubSend req None) pre /\ exists c, In (EPubOpen c None) pre) /\
  (forall pre post m r, tr = (pre ++ EPubSend m r :: post)%list ->
     exists c, In (EPubOpen c None) pre).

End IterationMore.

(** ** Concrete inputs *)

(** A flag set with TLS on, a client certificate and no key. *)
Definition flags_cert_no_key : Flags :=
  mkFlags "127.0.0.1:6030" "10.0.0.5:9339" "" [] "" "" ""
          "client.crt" "" "" true false.

(** A configuration with a username, an empty password and one path. *)
Definition flags_demo : Flags :=
  mkFlags "127.0.0.1:6030" "10.0.0.5:9339" "dev1"
          [mkPath "" [mkPathElem "interfaces" []] ""] "admin" "" "" "" "" "" false false.

(** Both streams open, the request is sent and two updates are relayed. *)
Definition relay_schedule : list (@choice nat) :=
  [SchedPub None; SchedSub None; SchedSub None;
   SchedRecv (inl 1); SchedHandoff; SchedPub None;
   SchedRecv (inl 2); SchedHandoff; SchedPub None].

(** The target closes its stream (io.EOF); publish then takes ctx.Done(). *)
Definition eof_schedule : list (@choice nat) :=
  [SchedPub None; SchedSub None; SchedSub None; SchedRecv (inr ErrEOF); SchedPubCancel].

(** subscribe fails to open its stream while publish waits in its select. *)
Definition sub_fails_schedule : list (@choice nat) :=
  [SchedPub None; SchedSub (Some (ErrStatus 14))].

(** publish's stream.Send fails on the first update; subscribe then receives a
    second one and holds it for the channel. *)
Definition loss_schedule : list (@choice nat) :=
  [SchedPub None; SchedSub None; SchedSub None;
   SchedRecv (inl 1); SchedHandoff; SchedPub (Some (ErrStatus 14));
   SchedRecv (inl 2)].

(** A path parser for tests: one element named by the value; the empty value
    is rejected. *)
Definition parse_demo (v : string) : GoErr + Path :=
  if String.eqb v "" then inl (ErrMsg "empty path")
  else inr (mkPath "" [mkPathElem v []] "").

Definition strpath_demo (p : Path) : string :=
  match path_elem p with
  | [e] => pe_name e
  | _ => ""
  end.

(** A file system with a CA bundle, a client certificate and its key. *)
Definition fs_demo (p : string) : option bytes :=
  if String.eqb p "ca.pem" then Some [Byte.x01]
  else if String.eqb p "client.crt" then Some [Byte.x02]
  else if String.eqb p "client.key" then Some [Byte.x03]
  else None.

Definition pem_demo (b : bytes) : list nat := [1].

Definition x509_demo (c k : bytes) : option nat :=
  match c, k with
  | [Byte.x02], [Byte.x03] => Some 7
  | _, _ => None
  end.

(** * Properties *)

(** ** The credential builder *)

Section CredentialFacts.

Variable Certificate : Type.
Variable fs : string -> option bytes.
Variable pem_certs : bytes -> list Certificate.
Variable x509_key_pair : bytes -> bytes -> option Certificate.

(** The log of a bound computation is the first log followed by the second. *)
Lemma io_bind_log {A B} (m : IO A) (k : A -> IO B) op :
  In op (fst (io_bind m k)) ->
  In op (fst m) \/ exists a, snd m = inr a /\ In op (fst (k a)).
Proof.
  destruct m as [l [e|a]]; simpl; auto.
  destruct (k a) as [l' r] eqn:Hk; simpl. intros Hin.
  apply in_app_or in Hin as [H|H]; auto.
  right. exists a. rewrite Hk. auto.
Qed.

(** C6: with TLS disabled the builder returns [grpc.WithInsecure()] and no error,
    whatever the other arguments, and it touches no file. *)
Theorem newTLSConfig_tls_disabled skipVerify certFile keyFile caFile :
  newTLSConfig Certificate fs pem_certs x509_key_pair false skipVerify certFile keyFile caFile = ([], inr (WithInsecure Certificate)).
Proof. reflexivity. Qed.

Ltac tls_cases :=
  unfold newTLSConfig, readFile, loadX509KeyPair, appendCertsFromPEM,
    io_bind, io_ret, io_fail in *;
  repeat match goal with
         | |- context [String.eqb ?a ?b] => destruct (String.eqb a b) eqn:?
         | |- context [fs ?p] => destruct (fs p) eqn:?
         | |- context [x509_key_pair ?a ?b] => destruct (x509_key_pair a b) eqn:?
         | |- context [pem_certs ?b] => destruct (pem_certs b) eqn:?
         end; simpl in *.

(** C5: with TLS enabled, skip-verify turns verification off and the CA path
    plays no part; otherwise a non-empty CA path is read and parsed, an unreadable
    or certificate-free file is an error, and a parsed bundle becomes the root
    set; an empty CA path leaves the host's root set ([RootCAs = None]). *)
Theorem newTLSConfig_verification :
  (forall certFile keyFile caFile caFile',
      newTLSConfig Certificate fs pem_certs x509_key_pair true true certFile keyFile caFile =
      newTLSConfig Certificate fs pem_certs x509_key_pair true true certFile keyFile caFile' /\
      (forall p, ~ In (ReadFile p)
         (fst (newTLSConfig Certificate fs pem_certs x509_key_pair true true certFile keyFile caFile))) /\
      (forall c, snd (newTLSConfig Certificate fs pem_certs x509_key_pair true true certFile keyFile caFile)
                 = inr (WithTransportCredentials Certificate c) ->
                 InsecureSkipVerify Certificate c = true)) /\
  (forall certFile keyFile caFile,
      caFile <> "" -> fs caFile = None ->
      newTLSConfig Certificate fs pem_certs x509_key_pair true false certFile keyFile caFile =
      ([ReadFile caFile], inl (ErrPath "open" caFile))) /\
  (forall certFile keyFile caFile b,
      caFile <> "" -> fs caFile = Some b -> pem_certs b = [] ->
      newTLSConfig Certificate fs pem_certs x509_key_pair true false certFile keyFile caFile =
      ([ReadFile caFile], inl (ErrMsg "credentials: failed to append certificates"))) /\
  (forall certFile keyFile caFile b,
      caFile <> "" -> fs caFile = Some b -> pem_certs b <> [] ->
      In (ReadFile caFile)
        (fst (newTLSConfig Certificate fs pem_certs x509_key_pair true false certFile keyFile caFile)) /\
      forall c, snd (newTLSConfig Certificate fs pem_certs x509_key_pair true false certFile keyFile caFile)
                = inr (WithTransportCredentials Certificate c) ->
                RootCAs Certificate c = Some (pem_certs b) /\ InsecureSkipVerify Certificate c = false) /\
  (forall certFile keyFile,
      (forall p, ~ In (ReadFile p)
         (fst (newTLSConfig Certificate fs pem_certs x509_key_pair true false certFile keyFile ""))) /\
      forall c, snd (newTLSConfig Certificate fs pem_certs x509_key_pair true false certFile keyFile "")
                = inr (WithTransportCredentials Certificate c) ->
                RootCAs Certificate c = None /\ InsecureSkipVerify Certificate c = false).
Proof.
  split; [|split; [|split; [|split]]].
  - intros certFile keyFile caFile caFile'. split; [reflexivity|split].
    + intros p. tls_cases; intuition discriminate.
    + intros c. tls_cases; intros H; inversion H; reflexivity.
  - intros certFile keyFile caFile Hne Hfs.
    unfold newTLSConfig, readFile; rewrite Hfs, (proj2 (String.eqb_neq caFile "") Hne).
    tls_cases; congruence.
  - intros certFile keyFile caFile b Hne Hfs Hp.
    unfold newTLSConfig, readFile; rewrite Hfs, (proj2 (String.eqb_neq caFile "") Hne).
    tls_cases; congruence.
  - intros certFile keyFile caFile b Hne Hfs Hp.
    unfold newTLSConfig, readFile; rewrite Hfs, (proj2 (String.eqb_neq caFile "") Hne). split.
    + tls_cases; auto.
    + intros c. tls_cases; try congruence; intros H; inversion H; subst; simpl; auto.
  - intros certFile keyFile. split.
    + intros p. tls_cases; intuition discriminate.
    + intros c. tls_cases; try discriminate; intros H; inversion H; subst; simpl; auto.
Qed.

(** A builder error makes [main] exit before any dial. *)
Lemma main_startup_fatal_before_dial dial (f : Flags) e :
  snd (newTLSConfig Certificate fs pem_certs x509_key_pair (collector_tls f)
         (collector_tls_skipverify f) (collector_certfile f) (collector_keyfile f)
         (collector_cafile f)) = inl e ->
  main_startup Certificate fs pem_certs x509_key_pair dial f =
  ((map EffFile (fst (newTLSConfig Certificate fs pem_certs x509_key_pair (collector_tls f)
         (collector_tls_skipverify f) (collector_certfile f) (collector_keyfile f)
         (collector_cafile f))) ++ [EffFatal e])%list, false).
Proof.
  unfold main_startup.
  destruct (newTLSConfig Certificate fs pem_certs x509_key_pair _ _ _ _ _) as [ops r].
  simpl. intros ->. reflexivity.
Qed.

(** C3 (amended): with TLS enabled, a client certificate path without a key path
    is an error; the key pair is never loaded, and [main] exits fatally before
    it dials the collector or the target.  With TLS disabled, the builder
    returns [grpc.WithInsecure()], no error and no file access whatever the
    certificate, key and CA paths, and [main] goes on to dial the collector. *)
Theorem newTLSConfig_cert_without_key dial :
  (forall f : Flags,
   collector_tls f = true -> collector_certfile f <> "" -> collector_keyfile f = "" ->
      (exists e, snd (newTLSConfig Certificate fs pem_certs x509_key_pair (collector_tls f)
                        (collector_tls_skipverify f) (collector_certfile f) (collector_keyfile f)
                        (collector_cafile f)) = inl e) /\
      (forall c k, ~ In (LoadX509KeyPair c k)
                     (fst (newTLSConfig Certificate fs pem_certs x509_key_pair (collector_tls f)
                        (collector_tls_skipverify f) (collector_certfile f) (collector_keyfile f)
                        (collector_cafile f)))) /\
      snd (main_startup Certificate fs pem_certs x509_key_pair dial f) = false /\
      (forall a, ~ In (EffDial a) (fst (main_startup Certificate fs pem_certs x509_key_pair dial f)))) /\
  (forall skipVerify certFile keyFile caFile,
     newTLSConfig Certificate fs pem_certs x509_key_pair false skipVerify certFile keyFile caFile =
     ([], inr (WithInsecure Certificate))) /\
  (forall f : Flags, collector_tls f = false ->
     exists rest, fst (main_startup Certificate fs pem_certs x509_key_pair dial f) =
                  EffDial (collector_addr f) :: rest).
Proof.
  split; [|split].
  - intros f.
    intros Htls Hcert Hkey.
    assert (Hc : String.eqb (collector_certfile f) "" = false) by (apply String.eqb_neq; exact Hcert).
    assert (Hk : String.eqb (collector_keyfile f) "" = true) by (rewrite Hkey; reflexivity).
    assert (Hres : (exists e, snd (newTLSConfig Certificate fs pem_certs x509_key_pair (collector_tls f)
                      (collector_tls_skipverify f) (collector_certfile f) (collector_keyfile f)
                      (collector_cafile f)) = inl e) /\
      (forall c k, ~ In (LoadX509KeyPair c k)
                   (fst (newTLSConfig Certificate fs pem_certs x509_key_pair (collector_tls f)
                      (collector_tls_skipverify f) (collector_certfile f) (collector_keyfile f)
                      (collector_cafile f))))).
    { rewrite Htls. unfold newTLSConfig, readFile, appendCertsFromPEM, io_bind, io_ret, io_fail.
      rewrite Hc, Hk. simpl.
      destruct (collector_tls_skipverify f); simpl.
      - split; [eexists; reflexivity | intros c k H; exact H].
      - destruct (String.eqb (collector_cafile f) ""); simpl.
        + split; [eexists; reflexivity | intros c k H; exact H].
        + destruct (fs (collector_cafile f)); simpl.
          * destruct (pem_certs b); simpl;
              (split; [eexists; reflexivity | intros c0 k0 [H|H]; [discriminate | exact H]]).
          * split; [eexists; reflexivity | intros c0 k0 [H|H]; [discriminate | exact H]]. }
    destruct Hres as [[e He] Hno]. split; [eauto | split; [exact Hno|]].
    rewrite (main_startup_fatal_before_dial dial f e He). simpl. split; [reflexivity|].
    intros a Hin. apply in_app_or in Hin as [Hin|[Hin|[]]]; [|discriminate].
    apply in_map_iff in Hin as [op [Hop _]]. discriminate.
  - intros skipVerify certFile keyFile caFile. reflexivity.
  - intros f Htls. unfold main_startup. rewrite Htls. simpl.
    destruct (dial (collector_addr f)); [|destruct (dial (target_addr f))];
      eexists; reflexivity.
Qed.

End CredentialFacts.

(** C3: a client certificate path with an empty key path is accepted when TLS
    is disabled: the builder returns [grpc.WithInsecure()] and no error. *)
Lemma newTLSConfig_cert_without_key_tls_off :
  ~ (exists e, snd (newTLSConfig nat (fun _ => None) (fun _ => []) (fun _ _ => None)
                      false false "client.crt" "" "") = inl e).
Proof. intros [e He]. discriminate He. Qed.

Lemma newTLSConfig_cert_without_key_witness :
  (collector_tls flags_cert_no_key = true /\ collector_certfile flags_cert_no_key <> "" /\
   collector_keyfile flags_cert_no_key = "") /\
  snd (main_startup nat (fun _ => None) (fun _ => []) (fun _ _ => None) (fun _ => None)
         flags_cert_no_key) = false /\
  newTLSConfig nat (fun _ => None) (fun _ => []) (fun _ _ => None)
    false true "client.crt" "" "ca.pem" = ([], inr (WithInsecure nat)).
Proof.
  split; [split; [reflexivity | split; [discriminate | reflexivity]]|].
  split.
  - apply (proj1 (newTLSConfig_cert_without_key nat (fun _ => None) (fun _ => [])
                    (fun _ _ => None) (fun _ => None)) flags_cert_no_key);
      [reflexivity | discriminate | reflexivity].
  - exact (proj1 (proj2 (newTLSConfig_cert_without_key nat (fun _ => None) (fun _ => [])
                    (fun _ _ => None) (fun _ => None))) true "client.crt" "" "ca.pem").
Defined.

Lemma newTLSConfig_verification_witness :
  newTLSConfig nat (fun _ => None) (fun _ => []) (fun _ _ => None) true false "" "" "ca.pem" =
  ([ReadFile "ca.pem"], inl (ErrPath "open" "ca.pem")).
Proof.
  apply (proj1 (proj2 (newTLSConfig_verification nat (fun _ => None) (fun _ => [])
                         (fun _ _ => None))));
    [discriminate | reflexivity].
Defined.

(** ** One iteration: invariants of the step function *)

Section IterationFacts.

Context {M : Type}.
Variable f : Flags.

Lemma recv_of_app (a b : list (@event M)) : recv_of (a ++ b) = (recv_of a ++ recv_of b)%list.
Proof. induction a as [|[] a IH]; simpl; try destruct res; try rewrite IH; reflexivity. Qed.

Lemma sent_of_app (a b : list (@event M)) : sent_of (a ++ b) = (sent_of a ++ sent_of b)%list.
Proof. induction a as [|[] a IH]; simpl; try destruct res; try rewrite IH; reflexivity. Qed.

Lemma attempted_of_app (a b : list (@event M)) :
  attempted_of (a ++ b) = (attempted_of a ++ attempted_of b)%list.
Proof. induction a as [|[] a IH]; simpl; try rewrite IH; reflexivity. Qed.

Lemma handoffs_of_app (a b : list (@event M)) :
  handoffs_of (a ++ b) = (handoffs_of a ++ handoffs_of b)%list.
Proof. induction a as [|[] a IH]; simpl; try rewrite IH; reflexivity. Qed.

Lemma requests_of_app (a b : list (@event M)) :
  requests_of (a ++ b) = (requests_of a ++ requests_of b)%list.
Proof. induction a as [|[] a IH]; simpl; try rewrite IH; reflexivity. Qed.

(** An invariant of the step function holds along every run. *)
Lemma run_invariant (I : list (@event M) -> @gstate M -> Prop) :
  (forall tr s ch s' ev, I tr s -> step f s ch = Some (s', ev) -> I (tr ++ [ev])%list s') ->
  forall chs s s' evs tr, I tr s -> run f s chs = Some (s', evs) -> I (tr ++ evs)%list s'.
Proof.
  intros Hstep chs. induction chs as [|ch chs IH]; intros s s' evs tr HI Hrun; simpl in Hrun.
  - inversion Hrun; subst. rewrite app_nil_r. exact HI.
  - destruct (step f s ch) as [[s1 ev]|] eqn:Hs; [|discriminate].
    destruct (run f s1 chs) as [[s2 evs']|] eqn:Hr; [|discriminate].
    inversion Hrun; subst.
    replace (tr ++ ev :: evs')%list with ((tr ++ [ev]) ++ evs')%list
      by (rewrite <- app_assoc; reflexivity).
    eapply IH; [eapply Hstep; eauto | exact Hr].
Qed.

(** A run from the start of an iteration. *)
Lemma run_from_init (I : list (@event M) -> @gstate M -> Prop) k :
  I [] (init k) ->
  (forall tr s ch s' ev, I tr s -> step f s ch = Some (s', ev) -> I (tr ++ [ev])%list s') ->
  forall chs s evs, run f (init k) chs = Some (s, evs) -> I evs s.
Proof.
  intros H0 Hstep chs s evs Hrun.
  exact (run_invariant I Hstep chs (init k) s evs [] H0 Hrun).
Qed.

(** Case analysis on one step: the goroutine that moves and the outcome. *)
Ltac step_cases Hs :=
  match type of Hs with
  | step _ ?s ?ch = Some _ =>
      destruct s as [k0 sub0 pub0 c0 e0];
      destruct ch as [[r|]|[m|r]| | |[r|]|];
      destruct sub0; destruct pub0; try destruct c0;
      simpl in Hs; try discriminate Hs; inversion Hs; subst; clear Hs
  end.

Lemma step_scope s ch s' ev :
  step f s ch = Some (s', ev) -> g_scope s' = g_scope s /\ @event_ok M f (g_scope s) ev.
Proof. intros Hs. step_cases Hs; simpl; try destruct e0; simpl; auto. Qed.

Lemma step_cancel_mono s ch s' (ev : @event M) :
  step f s ch = Some (s', ev) -> g_cancelled s = true -> g_cancelled s' = true.
Proof. intros Hs. step_cases Hs; simpl; try destruct e0; simpl; auto. Qed.

Lemma exit_inv_step s ch s' (ev : @event M) :
  exit_inv s -> step f s ch = Some (s', ev) -> exit_inv s'.
Proof.
  unfold exit_inv, sub_exit_ok, pub_exit_ok.
  intros [Hsub [Hpub Herr]] Hs. step_cases Hs; simpl in *;
    repeat split; intros; try congruence;
    try match goal with H : SubDone _ = SubDone _ |- _ => inversion H; subst end;
    try match goal with H : PubDone _ = PubDone _ |- _ => inversion H; subst end;
    try (destruct e0; discriminate);
    try solve [left; reflexivity | right; eexists; eauto];
    try solve [eapply Hsub; eauto | eapply Hpub; eauto];
    try solve [apply Herr; auto].
Qed.

Lemma relay_inv_step tr s ch s' (ev : @event M) :
  relay_inv tr s -> step f s ch = Some (s', ev) -> relay_inv (tr ++ [ev])%list s'.
Proof.
  unfold relay_inv, inflight, pub_holding.
  intros HI Hs. step_cases Hs; simpl in *; intros Hc;
    rewrite ?recv_of_app, ?sent_of_app; simpl;
    try (destruct e0; simpl in Hc; discriminate);
    try discriminate Hc; specialize (HI eq_refl); rewrite HI;
    repeat rewrite <- app_assoc; simpl; repeat rewrite app_nil_r; reflexivity.
Qed.

Lemma forward_inv_step tr s ch s' (ev : @event M) :
  forward_inv tr s -> step f s ch = Some (s', ev) -> forward_inv (tr ++ [ev])%list s'.
Proof.
  unfold forward_inv, pub_holding.
  intros HI Hs. step_cases Hs; simpl in *;
    rewrite ?attempted_of_app, ?handoffs_of_app, <- ?HI; simpl;
    try (destruct e0; simpl);
    rewrite <- ?app_assoc, ?app_nil_r; reflexivity.
Qed.

Lemma request_inv_step tr s ch s' (ev : @event M) :
  request_inv f tr s -> step f s ch = Some (s', ev) -> request_inv f (tr ++ [ev])%list s'.
Proof.
  unfold request_inv.
  intros [H1 [H2 H3]] Hs. step_cases Hs; simpl in *;
    try destruct e0; simpl; rewrite ?requests_of_app; simpl; rewrite ?app_nil_r;
    repeat split; intros; auto;
    try (destruct H as [H|[m' H]]; discriminate H);
    try (destruct H as [H|H]; discriminate H);
    try (rewrite H2 by auto; simpl; auto);
    try (rewrite H3 by eauto; auto).
Qed.

Lemma events_inv_step k tr s ch s' (ev : @event M) :
  events_inv f k tr s -> step f s ch = Some (s', ev) -> events_inv f k (tr ++ [ev])%list s'.
Proof.
  intros [Hk Hall] Hs. apply step_scope in Hs as [Hk' Hev]. subst k. split.
  - exact Hk'.
  - apply Forall_app. split; [exact Hall | constructor; [exact Hev | constructor]].
Qed.

(** The invariants hold along every run of an iteration. *)
Lemma iteration_invariants k chs s (evs : list (@event M)) :
  run f (init k) chs = Some (s, evs) ->
  exit_inv s /\ relay_inv evs s /\ forward_inv evs s /\ request_inv f evs s /\
  events_inv f k evs s.
Proof.
  intros Hrun. split; [|split; [|split; [|split]]].
  - apply (run_from_init (fun _ s => exit_inv s) k) with (chs := chs) (evs := evs); auto.
    + unfold exit_inv; simpl; repeat split; intros; discriminate.
    + intros tr s0 ch s1 ev H Hs. eapply exit_inv_step; eauto.
  - apply (run_from_init relay_inv k) with (chs := chs); auto.
    + intros _. reflexivity.
    + intros. eapply relay_inv_step; eauto.
  - apply (run_from_init forward_inv k) with (chs := chs); auto.
    + reflexivity.
    + intros. eapply forward_inv_step; eauto.
  - apply (run_from_init (request_inv f) k) with (chs := chs); auto.
    + unfold request_inv; simpl; repeat split; auto.
      intros [H|[m H]]; discriminate.
    + intros. eapply request_inv_step; eauto.
  - apply (run_from_init (events_inv f k) k) with (chs := chs); auto.
    + split; [reflexivity | constructor].
    + intros. eapply events_inv_step; eauto.
Qed.

End IterationFacts.

(** ** Claims about one iteration and the loop *)

Section Claims.

Context {M : Type}.

Lemma subscribe_request_fold paths pre acc :
  fold_left (fun sl p =>
               mkSubscriptionList (sl_prefix sl)
                 (sl_subscription sl ++ [mkSubscription p TARGET_DEFINED 0])%list)
            paths (mkSubscriptionList pre acc) =
  mkSubscriptionList pre (acc ++ map (fun p => mkSubscription p TARGET_DEFINED 0) paths)%list.
Proof.
  revert acc. induction paths as [|p ps IH]; intros acc; simpl.
  - rewrite app_nil_r. reflexivity.
  - rewrite IH, <- app_assoc. reflexivity.
Qed.

(** C2: the one request subscribe sends has the target in the prefix and one
    TARGET_DEFINED subscription per configured path, in order; it is sent at most
    once, and exactly once by the time subscribe receives. *)
Theorem subscribe_single_request f k chs s (evs : list (@event M)) :
  run f (init k) chs = Some (s, evs) ->
  subscribe_request (target_value f) (subscribe_paths f) =
    SubscribeRequest_Subscribe
      (mkSubscriptionList (Some (mkPath "" [] (target_value f)))
         (map (fun p => mkSubscription p TARGET_DEFINED 0) (subscribe_paths f))) /\
  (requests_of evs = [] \/
   requests_of evs = [subscribe_request (target_value f) (subscribe_paths f)]) /\
  (g_sub s = SubRecv \/ (exists m, g_sub s = SubHand m) ->
   requests_of evs = [subscribe_request (target_value f) (subscribe_paths f)]).
Proof.
  intros Hrun. destruct (iteration_invariants f k chs s evs Hrun) as [_ [_ [_ [[H1 [_ H3]] _]]]].
  split; [|split; [exact H1 | exact H3]].
  unfold subscribe_request. rewrite subscribe_request_fold. reflexivity.
Qed.

(** C4: subscribe opens its stream with username/password metadata exactly when
    the username is non-empty; publish opens its stream without metadata. *)
Theorem metadata_on_subscribe_only f k chs s (evs : list (@event M)) :
  run f (init k) chs = Some (s, evs) ->
  (forall c r, In (ESubOpen c r) evs ->
     (ctx_md c <> None <-> username f <> "") /\
     (username f <> "" ->
      ctx_md c = Some [("username", [username f]); ("password", [password f])])) /\
  (forall c r, In (EPubOpen c r) evs -> ctx_md c = None).
Proof.
  intros Hrun. destruct (iteration_invariants f k chs s evs Hrun) as [_ [_ [_ [_ [_ Hall]]]]].
  rewrite Forall_forall in Hall. split.
  - intros c r Hin. specialize (Hall _ Hin). simpl in Hall. subst c.
    unfold subscribe_ctx.
    destruct (String.eqb (username f) "") eqn:Hu; simpl.
    + apply String.eqb_eq in Hu. split; [split; intros H; [exfalso; apply H; reflexivity | contradiction]|].
      intros H; contradiction.
    + apply String.eqb_neq in Hu. split; [split; intros; [exact Hu | discriminate]|].
      intros _. reflexivity.
  - intros c r Hin. specialize (Hall _ Hin). simpl in Hall. subst c. reflexivity.
Qed.

(** C8: whenever subscribe or publish has returned, it returned a non-nil error:
    a wrapped stream error or the context's cancellation error. *)
Theorem sessions_return_errors f k chs s (evs : list (@event M)) :
  run f (init k) chs = Some (s, evs) ->
  (forall r, g_sub s = SubDone r -> r <> None /\ sub_exit_ok r) /\
  (forall r, g_pub s = PubDone r -> r <> None /\ pub_exit_ok r).
Proof.
  intros Hrun. destruct (iteration_invariants f k chs s evs Hrun) as [[Hs [Hp _]] _].
  split.
  - intros r Hr. destruct (Hs r Hr) as [Hok _]. split; [|exact Hok].
    destruct Hok as [->|[e [->|[->| ->]]]]; discriminate.
  - intros r Hr. destruct (Hp r Hr) as [Hok _]. split; [|exact Hok].
    destruct Hok as [->|[e [->| ->]]]; discriminate.
Qed.

(** C9: publish hands to stream.Send exactly the messages it took from the
    channel, in order, and it moves only by opening its stream, receiving from
    the channel, sending on its stream or taking the cancellation branch. *)
Theorem publish_forwards_unmodified f k chs s (evs : list (@event M)) :
  run f (init k) chs = Some (s, evs) ->
  (attempted_of evs ++ pub_holding s)%list = handoffs_of evs /\
  (forall s1 ch s2 (ev : @event M), step f s1 ch = Some (s2, ev) ->
     g_pub s2 <> g_pub s1 -> publish_action ev = true).
Proof.
  intros Hrun. destruct (iteration_invariants f k chs s evs Hrun) as [_ [_ [Hfw _]]].
  split; [exact Hfw|].
  intros s1 ch s2 ev Hs Hne.
  destruct s1 as [k0 sub0 pub0 c0 e0];
    destruct ch as [[r|]|[m|r]| | |[r|]|];
    destruct sub0; destruct pub0; try destruct c0;
    simpl in Hs; try discriminate Hs; inversion Hs; subst; clear Hs;
    simpl in *; try destruct e0; simpl in *; try reflexivity; congruence.
Qed.

(** C1: while the context is not cancelled, the messages received from the
    target are those sent to the collector followed by the at most two in
    flight; when both goroutines wait, they are exactly those sent; and the
    messages in flight reach the collector, in order, without another receive. *)
Theorem relay_identity f k chs s (evs : list (@event M)) :
  run f (init k) chs = Some (s, evs) -> g_cancelled s = false ->
  recv_of evs = (sent_of evs ++ inflight s)%list /\
  length (inflight s) <= 2 /\
  (quiescent s -> sent_of evs = recv_of evs) /\
  exists chs' s' evs', run f s chs' = Some (s', evs') /\ recv_of evs' = [] /\
    g_cancelled s' = false /\ sent_of (evs ++ evs')%list = recv_of evs.
Proof.
  intros Hrun Hc.
  destruct (iteration_invariants f k chs s evs Hrun) as [[Hs [Hp _]] [Hrel _]].
  specialize (Hrel Hc).
  split; [exact Hrel|].
  split; [unfold inflight, pub_holding; destruct (g_pub s), (g_sub s); simpl; lia|].
  split.
  - intros [Hsub Hpub]. rewrite Hrel. unfold inflight, pub_holding.
    rewrite Hsub, Hpub. simpl. rewrite app_nil_r. reflexivity.
  - destruct s as [k0 sub0 pub0 c0 e0]; simpl in *; subst c0.
    unfold inflight, pub_holding in *; simpl in *.
    destruct pub0 as [| |m1|r1]; [| | |discriminate (proj2 (Hp r1 eq_refl))];
    destruct sub0 as [| | |m2|r2]; try (discriminate (proj2 (Hs r2 eq_refl)));
    first
      [ exists [SchedPub None; SchedHandoff; SchedPub None]; eexists; eexists;
        split; [reflexivity|]
      | exists [SchedPub None]; eexists; eexists;
        split; [reflexivity|]
      | exists [SchedHandoff; SchedPub None]; eexists; eexists;
        split; [reflexivity|]
      | exists []; eexists; eexists;
        split; [reflexivity|] ];
    simpl; (split; [reflexivity|]); (split; [reflexivity|]);
    rewrite sent_of_app, Hrel; simpl; rewrite ?app_nil_r; reflexivity.
Qed.

(** C10 (amended): once either goroutine has returned, the context is
    cancelled; if the other one is at its channel select, its only step is the
    cancellation branch, returning ctx.Err() = context.Canceled.  A goroutine
    inside a stream call (open, Send or Recv) can instead return that call's
    own wrapped error, whether or not the context is cancelled.  The loop moves
    to the next iteration only from a run in which both goroutines returned
    (eg.Wait()), and the next pair starts afresh. *)
Theorem iteration_teardown f k chs s (evs : list (@event M)) :
  run f (init k) chs = Some (s, evs) ->
  ((exists r, g_sub s = SubDone r) \/ (exists r, g_pub s = PubDone r) -> g_cancelled s = true) /\
  ((exists r, g_sub s = SubDone r) -> g_pub s = PubSelect ->
     step f s SchedPubCancel = Some (pub_return s (Some Canceled), EPubCtxDone) /\
     forall ch s' (ev : @event M), step f s ch = Some (s', ev) ->
       g_pub s' = PubDone (Some Canceled) /\ ev = EPubCtxDone) /\
  (forall m, (exists r, g_pub s = PubDone r) -> g_sub s = SubHand m ->
     step f s SchedSubCancel = Some (sub_return s (Some Canceled), ESubCtxDone) /\
     forall ch s' (ev : @event M), step f s ch = Some (s', ev) ->
       g_sub s' = SubDone (Some Canceled) /\ ev = ESubCtxDone) /\
  (forall e,
     (g_sub s = SubStart -> exists ev, step f s (SchedSub (Some e)) =
        Some (sub_return s (Some (Errorf "error from Subscribe: %s" e)), ev)) /\
     (g_sub s = SubSendReq -> exists ev, step f s (SchedSub (Some e)) =
        Some (sub_return s (Some (Errorf "error sending SubscribeRequest: %s" e)), ev)) /\
     (g_sub s = SubRecv -> exists ev, step f s (SchedRecv (inr e)) =
        Some (sub_return s (Some (Errorf "error from Subscribe.Recv: %s" e)), ev)) /\
     (g_pub s = PubStart -> exists ev, step f s (SchedPub (Some e)) =
        Some (pub_return s (Some (Errorf "error from Publish: %s" e)), ev)) /\
     (forall m, g_pub s = PubSend m -> exists ev, step f s (SchedPub (Some e)) =
        Some (pub_return s (Some (Errorf "error from Publish.Send: %s" e)), ev))) /\
  (forall k' (evs' : list (@event M)) l t,
     main_loop f k' (LIter k' evs' l t) ->
     exists chs' s', run f (init k') chs' = Some (s', evs') /\ both_done s' /\
       l = g_err s' /\ main_loop f (S k') t).
Proof.
  intros Hrun. destruct (iteration_invariants f k chs s evs Hrun) as [[Hs [Hp _]] _].
  assert (Hcan : (exists r, g_sub s = SubDone r) \/ (exists r, g_pub s = PubDone r) ->
                 g_cancelled s = true).
  { intros [[r Hr]|[r Hr]]; [exact (proj2 (Hs r Hr)) | exact (proj2 (Hp r Hr))]. }
  split; [exact Hcan|split; [|split; [|split]]].
  - intros Hsub Hpub. assert (Hc := Hcan (or_introl Hsub)). destruct Hsub as [r Hr].
    destruct s as [k0 sub0 pub0 c0 e0]; simpl in *; subst.
    split; [reflexivity|].
    intros ch s' ev Hst. destruct ch as [[r'|]|[m|r']| | |[r'|]|];
      simpl in Hst; try discriminate Hst; inversion Hst; subst; auto.
  - intros m Hpub Hsub. assert (Hc := Hcan (or_intror Hpub)). destruct Hpub as [r Hr].
    destruct s as [k0 sub0 pub0 c0 e0]; simpl in *; subst.
    split; [reflexivity|].
    intros ch s' ev Hst. destruct ch as [[r'|]|[m'|r']| | |[r'|]|];
      simpl in Hst; try discriminate Hst; inversion Hst; subst; auto.
  - intros e. destruct s as [k0 sub0 pub0 c0 e0]; simpl.
    repeat split; intros; subst; try destruct sub0; try destruct pub0;
      try discriminate; eexists; reflexivity.
  - intros k' evs' l t Hml.
    inversion Hml as [k1 chs1 s1 evs1 t1 Hr Hb Hn]; subst.
    exists chs1, s1. split; [exact Hr | split; [exact Hb | split; [reflexivity | exact Hn]]].
Qed.

(** Every iteration of [restart_trace] is a run of the loop. *)
Lemma restart_trace_loop f k : @main_loop M f k (restart_trace f k).
Proof.
  revert k. cofix CIH. intros k.
  assert (Ht : @restart_trace M f k = loop_trace_unfold (@restart_trace M f k))
    by (destruct (@restart_trace M f k); reflexivity).
  rewrite Ht; simpl.
  apply (main_loop_iter f k open_failures
           (mkG k (SubDone (Some (Errorf "error from Subscribe: %s" ErrEOF)))
                  (PubDone (Some (Errorf "error from Publish: %s" ErrEOF))) true
                  (Some (Errorf "error from Publish: %s" ErrEOF)))).
  - reflexivity.
  - split; eexists; reflexivity.
  - apply CIH.
Qed.

(** C7: after any iteration that ends (eg.Wait() returns), the loop goes on
    with the next iteration; no run of the loop ever exits, its n-th
    iteration is iteration [k+n], started afresh, and each one logs an error. *)
Theorem retry_loop_never_exits (f : Flags) :
  (forall k chs s (evs : list (@event M)),
     run f (init k) chs = Some (s, evs) -> both_done s ->
     exists t, main_loop f k (LIter k evs (g_err s) t)) /\
  (forall k (t : @loop_trace M), main_loop f k t ->
     ~ loop_exits t /\ forall n, exists l, iter_at n t = Some (k + n, l) /\ l <> None).
Proof.
  split.
  - intros k chs s evs Hrun Hboth. exists (restart_trace f (S k)).
    eapply main_loop_iter; [exact Hrun | exact Hboth | apply restart_trace_loop].
  - intros k t Hml. split.
    + intros Hex. revert k Hml. induction Hex as [e|k' evs l t' Hex IH]; intros k Hml;
        inversion Hml; subst; eauto.
    + intros n. revert k t Hml. induction n as [|n IH]; intros k t Hml;
        inversion Hml as [k' chs s evs t' Hrun Hboth Hnext]; subst; simpl.
      * exists (g_err s). rewrite Nat.add_0_r. split; [reflexivity|].
        destruct (iteration_invariants f k chs s evs Hrun) as [[Hs [_ He]] _].
        destruct Hboth as [[r Hr] _]. apply He. exact (proj2 (Hs r Hr)).
      * destruct (IH (S k) t' Hnext) as [l [Hl Hne]]. exists l.
        rewrite Nat.add_succ_r. split; [exact Hl | exact Hne].
Qed.

End Claims.

(** ** Concrete runs *)

Lemma relay_identity_witness :
  exists s evs, run flags_demo (init 0) relay_schedule = Some (s, evs) /\
    g_cancelled s = false /\ recv_of evs = [1; 2] /\
    recv_of evs = (sent_of evs ++ inflight s)%list.
Proof.
  eexists; eexists; split; [reflexivity|].
  split; [reflexivity|]. split; [reflexivity|].
  refine (proj1 (relay_identity flags_demo 0 relay_schedule _ _ _ _)); reflexivity.
Defined.

Lemma subscribe_single_request_witness :
  exists s (evs : list (@event nat)), run flags_demo (init 0) relay_schedule = Some (s, evs) /\
    requests_of evs = [subscribe_request "dev1" (subscribe_paths flags_demo)].
Proof.
  eexists; eexists; split; [reflexivity|].
  refine (proj2 (proj2 (subscribe_single_request flags_demo 0 relay_schedule _ _ _)) _);
    [reflexivity | left; reflexivity].
Defined.

Lemma metadata_on_subscribe_only_witness :
  exists s (evs : list (@event nat)), run flags_demo (init 0) relay_schedule = Some (s, evs) /\
    ctx_md (subscribe_ctx 0 "admin" "") = Some [("username", ["admin"]); ("password", [""])].
Proof.
  eexists; eexists; split; [reflexivity|].
  refine (proj2 (proj1 (metadata_on_subscribe_only flags_demo 0 relay_schedule _ _ _)
                   (subscribe_ctx 0 "admin" "") None _) _);
    [reflexivity | simpl; auto | discriminate].
Defined.

Lemma sessions_return_errors_witness :
  exists s (evs : list (@event nat)), run flags_demo (init 0) eof_schedule = Some (s, evs) /\
    g_sub s = SubDone (Some (Errorf "error from Subscribe.Recv: %s" ErrEOF)) /\
    g_pub s = PubDone (Some Canceled) /\
    Some (Errorf "error from Subscribe.Recv: %s" ErrEOF) <> None.
Proof.
  eexists; eexists; split; [reflexivity|].
  split; [reflexivity|]. split; [reflexivity|].
  refine (proj1 (proj1 (sessions_return_errors flags_demo 0 eof_schedule _ _ _) _ _));
    reflexivity.
Defined.

Lemma publish_forwards_unmodified_witness :
  exists s (evs : list (@event nat)), run flags_demo (init 0) relay_schedule = Some (s, evs) /\
    handoffs_of evs = [1; 2] /\ (attempted_of evs ++ pub_holding s)%list = handoffs_of evs.
Proof.
  eexists; eexists; split; [reflexivity|]. split; [reflexivity|].
  refine (proj1 (publish_forwards_unmodified flags_demo 0 relay_schedule _ _ _)); reflexivity.
Defined.

Lemma iteration_teardown_witness :
  exists s (evs : list (@event nat)), run flags_demo (init 0) sub_fails_schedule = Some (s, evs) /\
    g_pub s = PubSelect /\
    step flags_demo s SchedPubCancel = Some (pub_return s (Some Canceled), EPubCtxDone).
Proof.
  eexists; eexists; split; [reflexivity|]. split; [reflexivity|].
  refine (proj1 (proj1 (proj2 (iteration_teardown flags_demo 0 sub_fails_schedule _ _ _)) _ _));
    [reflexivity | eexists; reflexivity | reflexivity].
Defined.

(** publish's stream.Send fails; subscribe, blocked in stream.Recv, then gets the
    gRPC Canceled status (code 1) from Recv and returns that wrapped error, not
    the context's cancellation error.  The same holds for the other blocking
    stream calls: subscribe's open and request send after publish failed to
    open, and publish's stream.Send after subscribe's Recv failed. *)
Lemma iteration_teardown_recv_error :
  match run flags_demo (init 0)
          [SchedPub None; SchedSub None; SchedSub None;
           SchedRecv (inl 1); SchedHandoff; SchedPub (Some (ErrStatus 14));
           SchedRecv (inr (ErrStatus 1))] with
  | Some (s, _) =>
      g_pub s = PubDone (Some (Errorf "error from Publish.Send: %s" (ErrStatus 14))) /\
      g_cancelled s = true /\
      g_sub s = SubDone (Some (Errorf "error from Subscribe.Recv: %s" (ErrStatus 1))) /\
      g_sub s <> SubDone (ctx_Err s)
  | None => False
  end /\
  match @run nat flags_demo (init 0)
          [SchedPub (Some (ErrStatus 14)); SchedSub (Some (ErrStatus 1))] with
  | Some (s, _) =>
      g_cancelled s = true /\
      g_sub s = SubDone (Some (Errorf "error from Subscribe: %s" (ErrStatus 1))) /\
      g_sub s <> SubDone (ctx_Err s)
  | None => False
  end /\
  match @run nat flags_demo (init 0)
          [SchedPub (Some (ErrStatus 14)); SchedSub None; SchedSub (Some (ErrStatus 1))] with
  | Some (s, _) =>
      g_cancelled s = true /\
      g_sub s = SubDone (Some (Errorf "error sending SubscribeRequest: %s" (ErrStatus 1))) /\
      g_sub s <> SubDone (ctx_Err s)
  | None => False
  end /\
  match run flags_demo (init 0)
          [SchedPub None; SchedSub None; SchedSub None;
           SchedRecv (inl 1); SchedHandoff; SchedRecv (inr (ErrStatus 14));
           SchedPub (Some (ErrStatus 1))] with
  | Some (s, _) =>
      g_cancelled s = true /\
      g_pub s = PubDone (Some (Errorf "error from Publish.Send: %s" (ErrStatus 1))) /\
      g_pub s <> PubDone (ctx_Err s)
  | None => False
  end.
Proof.
  simpl. repeat split; try reflexivity; discriminate.
Qed.

Lemma retry_loop_never_exits_witness :
  exists l, iter_at 3 (@restart_trace nat flags_demo 0) = Some (3, l) /\ l <> None.
Proof.
  exact (proj2 (proj2 (retry_loop_never_exits flags_demo) 0 _ (restart_trace_loop flags_demo 0)) 3).
Defined.

(** ** The [-subscribe] flag value *)

Section MultiPathFacts.

Variable parseGNMIPath : string -> GoErr + Path.
Variable StrPath : Path -> string.

Lemma string_append_assoc (a b c : string) : (a ++ b) ++ c = a ++ (b ++ c).
Proof. induction a as [|ch a IH]; simpl; [reflexivity | rewrite IH; reflexivity]. Qed.

Lemma strings_Join_snoc (l : list string) (x sep : string) :
  strings_Join (l ++ [x])%list sep =
  match l with [] => x | _ => strings_Join l sep ++ sep ++ x end.
Proof.
  induction l as [|a l IH]; simpl; [reflexivity|].
  destruct l as [|b l]; simpl; [reflexivity|].
  simpl in IH. rewrite IH. destruct l; rewrite ?string_append_assoc; reflexivity.
Qed.

(** X1: when every [-subscribe] value parses, the flag holds the parsed paths
    after those it had, in the order given, duplicates included. *)
Theorem multiPath_SetAll_ok (m : multiPath) (vals : list string) (ps : list Path) :
  map parseGNMIPath vals = map inr ps ->
  multiPath_SetAll parseGNMIPath m vals = (mkMultiPath (mp_p m ++ ps)%list, None).
Proof.
  revert m ps. induction vals as [|v vals IH]; intros m ps Hmap.
  - destruct ps; [|discriminate]. simpl. rewrite app_nil_r. destruct m; reflexivity.
  - destruct ps as [|p ps]; [discriminate|]. simpl in Hmap. injection Hmap as Hv Hrest.
    simpl. unfold multiPath_Set. rewrite Hv. rewrite (IH _ _ Hrest). simpl.
    rewrite <- app_assoc. reflexivity.
Qed.

(** X2: at the first value that does not parse, Set returns its error and the
    flag keeps exactly the paths parsed before it; later values are not parsed. *)
Theorem multiPath_SetAll_first_error (m : multiPath) pre v post (ps : list Path) e :
  map parseGNMIPath pre = map inr ps -> parseGNMIPath v = inl e ->
  multiPath_SetAll parseGNMIPath m (pre ++ v :: post)%list =
  (mkMultiPath (mp_p m ++ ps)%list, Some e).
Proof.
  revert m ps. induction pre as [|w pre IH]; intros m ps Hmap Hv.
  - destruct ps; [|discriminate]. simpl. unfold multiPath_Set. rewrite Hv, app_nil_r.
    destruct m; reflexivity.
  - destruct ps as [|p ps]; [discriminate|]. simpl in Hmap. injection Hmap as Hw Hrest.
    simpl. unfold multiPath_Set at 1. rewrite Hw. rewrite (IH _ _ Hrest Hv). simpl.
    rewrite <- app_assoc. reflexivity.
Qed.

(** X3: a successful Set extends the printed flag value by ", " and the new
    path (or makes it the new path if the flag was empty); a nil flag prints
    as the empty string, like an empty one. *)
Theorem multiPath_String_Set (m m' : multiPath) s p :
  parseGNMIPath s = inr p -> multiPath_Set parseGNMIPath m s = (m', None) ->
  multiPath_String StrPath (Some m') =
    match mp_p m with
    | [] => StrPath p
    | _ => multiPath_String StrPath (Some m) ++ ", " ++ StrPath p
    end /\
  multiPath_String StrPath None = multiPath_String StrPath (Some (mkMultiPath [])).
Proof.
  intros Hp Hset. unfold multiPath_Set in Hset. rewrite Hp in Hset.
  injection Hset as <-. split; [|reflexivity].
  unfold multiPath_String. simpl. rewrite map_app. simpl.
  rewrite strings_Join_snoc. destruct (mp_p m); reflexivity.
Qed.

End MultiPathFacts.

(** ** The credential builder and the start-up of [main], further *)

Section StartupFacts.

Variable Certificate : Type.
Variable fs : string -> option bytes.
Variable pem_certs : bytes -> list Certificate.
Variable x509_key_pair : bytes -> bytes -> option Certificate.

Ltac tls_split :=
  unfold newTLSConfig, readFile, loadX509KeyPair, appendCertsFromPEM,
    io_bind, io_ret, io_fail in *;
  repeat match goal with
         | |- context [String.eqb ?a ?b] => destruct (String.eqb a b) eqn:?
         | |- context [fs ?p] => destruct (fs p) eqn:?
         | |- context [x509_key_pair ?a ?b] => destruct (x509_key_pair a b) eqn:?
         | |- context [pem_certs ?b] => destruct (pem_certs b) eqn:?
         end; simpl in *.

Ltac neq_from_eqb :=
  match goal with
  | H : String.eqb ?a ?b = false |- ?a <> ?b => apply String.eqb_neq; exact H
  end.

(** X4: the builder reads at most the CA file, then loads at most the client
    key pair, in that order: the CA file only with TLS on, verification on and a
    non-empty CA path; the key pair only with TLS on and both paths non-empty. *)
Theorem newTLSConfig_file_accesses useTLS skipVerify certFile keyFile caFile :
  exists l1 l2,
    fst (newTLSConfig Certificate fs pem_certs x509_key_pair
           useTLS skipVerify certFile keyFile caFile) = (l1 ++ l2)%list /\
    (l1 = [] \/ (l1 = [ReadFile caFile] /\ useTLS = true /\ skipVerify = false /\ caFile <> "")) /\
    (l2 = [] \/ (l2 = [LoadX509KeyPair certFile keyFile] /\ useTLS = true /\
                 certFile <> "" /\ keyFile <> "")).
Proof.
  destruct useTLS; [|exists [], []; split; [reflexivity | auto]].
  destruct skipVerify; tls_split;
    first [ exists [], []; split; [reflexivity|]
          | exists [ReadFile caFile], []; split; [reflexivity|]
          | exists [], [LoadX509KeyPair certFile keyFile]; split; [reflexivity|]
          | exists [ReadFile caFile], [LoadX509KeyPair certFile keyFile];
            split; [reflexivity|] ];
    split; first [left; reflexivity | right; repeat split; auto; neq_from_eqb].
Qed.

(** X5: a successful build with both client paths carries exactly the key pair
    loaded from those two files; with no client certificate path it carries
    no certificate. *)
Theorem newTLSConfig_client_cert :
  (forall skipVerify certFile keyFile caFile c,
     certFile <> "" -> keyFile <> "" ->
     snd (newTLSConfig Certificate fs pem_certs x509_key_pair
            true skipVerify certFile keyFile caFile) = inr (WithTransportCredentials Certificate c) ->
     exists cb kb cert, fs certFile = Some cb /\ fs keyFile = Some kb /\
       x509_key_pair cb kb = Some cert /\ Certificates Certificate c = [cert]) /\
  (forall skipVerify keyFile caFile c,
     snd (newTLSConfig Certificate fs pem_certs x509_key_pair
            true skipVerify "" keyFile caFile) = inr (WithTransportCredentials Certificate c) ->
     Certificates Certificate c = []).
Proof.
  split.
  - intros skipVerify certFile keyFile caFile c Hc Hk.
    unfold newTLSConfig.
    rewrite (proj2 (String.eqb_neq certFile "") Hc), (proj2 (String.eqb_neq keyFile "") Hk).
    destruct skipVerify; tls_split; try discriminate;
      intros H; inversion H; subst; simpl; eauto 10.
  - intros skipVerify keyFile caFile c.
    destruct skipVerify; tls_split; try discriminate;
      intros H; inversion H; subst; reflexivity.
Qed.

(** X6: [main] enters its loop exactly when the credentials are built and both
    dials succeed, after building them and dialing the collector, then the
    target; otherwise its last effect is its one fatal exit. *)
Theorem main_startup_outcome dial (f : Flags) :
  (snd (main_startup Certificate fs pem_certs x509_key_pair dial f) = true <->
   (exists o, snd (newTLSConfig Certificate fs pem_certs x509_key_pair (collector_tls f)
                     (collector_tls_skipverify f) (collector_certfile f) (collector_keyfile f)
                     (collector_cafile f)) = inr o) /\
   dial (collector_addr f) = None /\ dial (target_addr f) = None) /\
  (snd (main_startup Certificate fs pem_certs x509_key_pair dial f) = true ->
   fst (main_startup Certificate fs pem_certs x509_key_pair dial f) =
   (map EffFile (fst (newTLSConfig Certificate fs pem_certs x509_key_pair (collector_tls f)
                     (collector_tls_skipverify f) (collector_certfile f) (collector_keyfile f)
                     (collector_cafile f))) ++
    [EffDial (collector_addr f); EffDial (target_addr f)])%list) /\
  (snd (main_startup Certificate fs pem_certs x509_key_pair dial f) = false ->
   exists pre e, fst (main_startup Certificate fs pem_certs x509_key_pair dial f) =
                 (pre ++ [EffFatal e])%list /\ forall e', ~ In (EffFatal e') pre).
Proof.
  unfold main_startup.
  destruct (newTLSConfig Certificate fs pem_certs x509_key_pair _ _ _ _ _) as [ops [err|o]];
    simpl.
  - split; [split; [discriminate | intros [[o Ho] _]; discriminate]|].
    split; [discriminate|]. intros _. exists (map EffFile ops), err. split; [reflexivity|].
    intros e' Hin. apply in_map_iff in Hin as [op [Hop _]]. discriminate.
  - destruct (dial (collector_addr f)) as [e1|] eqn:H1;
      [|destruct (dial (target_addr f)) as [e2|] eqn:H2]; simpl.
    + split; [split; [discriminate | intros [_ [H _]]; discriminate]|].
      split; [discriminate|]. intros _.
      exists (map EffFile ops ++ [EffDial (collector_addr f)])%list,
             (Errorf "error dialing destination %q: %s" e1).
      split; [rewrite <- app_assoc; reflexivity|].
      intros e' Hin. apply in_app_or in Hin as [Hin|[Hin|[]]]; [|discriminate].
      apply in_map_iff in Hin as [op [Hop _]]. discriminate.
    + split; [split; [discriminate | intros [_ [_ H]]; discriminate]|].
      split; [discriminate|]. intros _.
      exists (map EffFile ops ++ [EffDial (collector_addr f); EffDial (target_addr f)])%list,
             (Errorf "error dialing target %q: %s" e2).
      split; [rewrite <- app_assoc; reflexivity|].
      intros e' Hin. apply in_app_or in Hin as [Hin|[Hin|[Hin|[]]]]; try discriminate.
      apply in_map_iff in Hin as [op [Hop _]]. discriminate.
    + split; [split; [intros _; eauto | reflexivity]|].
      split; [reflexivity | discriminate].
Qed.

End StartupFacts.

(** ** One iteration: the first error, stream protocol order, backpressure *)

Section IterationMoreFacts.

Context {M : Type}.
Variable f : Flags.

Ltac step_split Hs :=
  match type of Hs with
  | step _ ?s ?ch = Some _ =>
      destruct s as [k0 sub0 pub0 c0 e0];
      destruct ch as [[r|]|[m|r]| | |[r|]|];
      destruct sub0; destruct pub0; try destruct c0;
      simpl in Hs; try discriminate Hs; inversion Hs; subst; clear Hs
  end.

Ltac pick :=
  first [ reflexivity | assumption | left; pick | right; pick | eexists; pick ].

Lemma first_error_step s ch s' (ev : @event M) :
  exit_inv s -> first_error_inv s -> step f s ch = Some (s', ev) -> first_error_inv s'.
Proof.
  unfold first_error_inv, stream_error.
  intros [_ [_ He]] HI Hs. step_split Hs; simpl in *; destruct e0 as [g|]; simpl in *;
    try (left; reflexivity);
    try (exfalso; apply He; reflexivity);
    try (right; split; [pick | pick]);
    destruct HI as [HI|[[HI|HI] Hse]]; try discriminate HI;
    right; split; pick.
Qed.


Lemma backpressure_step tr s ch s' (ev : @event M) :
  backpressure_inv tr s -> step f s ch = Some (s', ev) -> backpressure_inv (tr ++ [ev])%list s'.
Proof.
  unfold backpressure_inv, sub_holding.
  intros [x [Hr [Hl Hx]]] Hs. step_split Hs; simpl in *;
    rewrite ?recv_of_app, ?handoffs_of_app; simpl; rewrite ?app_nil_r;
    try destruct e0; simpl;
    destruct Hx as [Hx|[? Hx]]; try discriminate Hx; subst; rewrite ?app_nil_r in Hr;
    first [ exists x; rewrite Hr; split; [reflexivity|]; split; [exact Hl|]; pick
          | exists []; rewrite Hr, ?app_nil_r; split; [reflexivity|]; split; [simpl; lia|]; pick
          | eexists; rewrite Hr; split; [reflexivity|]; split; [simpl; lia|]; pick ].
Qed.

Lemma send_loss_step tr s ch s' (ev : @event M) :
  send_loss_inv tr s -> step f s ch = Some (s', ev) -> send_loss_inv (tr ++ [ev])%list s'.
Proof.
  unfold send_loss_inv.
  intros [y [Hy [Hl Hd]]] Hs. step_split Hs; simpl in *;
    rewrite ?attempted_of_app, ?sent_of_app; simpl; rewrite ?app_nil_r;
    try destruct e0; simpl;
    first [ exists y; rewrite Hy; split; [reflexivity|]; split; [exact Hl|]; intros Hne;
            destruct (Hd Hne) as [? Hr0]; discriminate Hr0
          | exists y; rewrite Hy; split; [reflexivity|]; split; [exact Hl|]; intros _; pick
          | assert (y = []) as -> by (destruct y; [reflexivity|];
              destruct (Hd ltac:(discriminate)) as [? Hr0]; discriminate Hr0); rewrite app_nil_r in Hy;
            first [ exists []; rewrite Hy; simpl; split; [rewrite app_nil_r; reflexivity|];
                    split; [simpl; lia|]; intros H; contradiction H; reflexivity
                  | eexists; rewrite Hy; simpl; split; [reflexivity|];
                    split; [simpl; lia|]; intros _; pick ] ].
Qed.

Lemma phase_step tr s ch s' (ev : @event M) :
  phase_inv f tr s -> step f s ch = Some (s', ev) -> phase_inv f (tr ++ [ev])%list s'.
Proof.
  unfold phase_inv.
  intros [P1 [P2 P3]] Hs. step_split Hs; simpl in *; try destruct e0; simpl;
    repeat split; intros H;
    first [ solve [decompose [or ex] H; discriminate]
          | eexists; apply in_or_app; right; left; reflexivity
          | apply in_or_app; right; left; reflexivity
          | destruct P1 as [c Hc]; [pick|]; exists c; apply in_or_app; left; exact Hc
          | destruct P3 as [c Hc]; [pick|]; exists c; apply in_or_app; left; exact Hc
          | apply in_or_app; left; apply P2; pick ].
Qed.

Lemma step_event_pre s ch s' (ev : @event M) :
  step f s ch = Some (s', ev) ->
  match ev with
  | ESubRecv _ => g_sub s = SubRecv
  | ESubSend _ _ => g_sub s = SubSendReq
  | EHandoff _ => (exists m, g_sub s = SubHand m) /\ g_pub s = PubSelect
  | EPubSend m _ => g_pub s = PubSend m
  | _ => True
  end.
Proof. intros Hs. step_split Hs; simpl; eauto. Qed.

Lemma snoc_split {A} (tr : list A) ev pre x post :
  (tr ++ [ev])%list = (pre ++ x :: post)%list ->
  (pre = tr /\ x = ev /\ post = []) \/ exists post', tr = (pre ++ x :: post')%list.
Proof.
  induction post as [|a post _] using rev_ind; intros H.
  - left. apply app_inj_tail in H as [-> ->]. auto.
  - right. exists post.
    replace (pre ++ x :: post ++ [a])%list with ((pre ++ x :: post) ++ [a])%list in H
      by (rewrite <- app_assoc; reflexivity).
    apply app_inj_tail in H as [H _]. exact H.
Qed.

Lemma order_step tr s ch s' (ev : @event M) :
  phase_inv f tr s -> protocol_order f tr -> step f s ch = Some (s', ev) ->
  protocol_order f (tr ++ [ev])%list.
Proof.
  intros [P1 [P2 P3]] [O1 [O2 [O3 O4]]] Hs.
  pose proof (step_event_pre s ch s' ev Hs) as Hpre. clear Hs.
  split; [|split; [|split]].
  - intros pre post r Heq. apply snoc_split in Heq as [[-> [<- ->]]|[post' ->]].
    + apply P2. left. exact Hpre.
    + eapply O1. reflexivity.
  - intros pre post q r Heq. apply snoc_split in Heq as [[-> [<- ->]]|[post' ->]].
    + apply P1. left. exact Hpre.
    + eapply O2. reflexivity.
  - intros pre post m Heq. apply snoc_split in Heq as [[-> [<- ->]]|[post' ->]].
    + destruct Hpre as [[m' Hm] Hp]. split.
      * apply P2. right. eauto.
      * apply P3. left. exact Hp.
    + eapply O3. reflexivity.
  - intros pre post m r Heq. apply snoc_split in Heq as [[-> [<- ->]]|[post' ->]].
    + apply P3. right. eauto.
    + eapply O4. reflexivity.
Qed.

(** The errgroup's error together with the exit invariant, along a run. *)
Lemma first_error_run k chs s (evs : list (@event M)) :
  run f (init k) chs = Some (s, evs) -> exit_inv s /\ first_error_inv s.
Proof.
  intros Hrun.
  apply (run_from_init f (fun _ s => exit_inv s /\ first_error_inv s) k)
    with (chs := chs) (evs := evs); auto.
  - split; [unfold exit_inv; simpl; repeat split; intros; discriminate | left; reflexivity].
  - intros tr s0 ch s1 ev [He Hf] Hs. split.
    + eapply exit_inv_step; eauto.
    + eapply first_error_step; eauto.
Qed.

Lemma first_error_done k chs s (evs : list (@event M)) :
  run f (init k) chs = Some (s, evs) -> both_done s ->
  g_err s <> None /\ g_err s <> Some Canceled /\ stream_error (g_err s) /\
  (g_sub s = SubDone (g_err s) \/ g_pub s = PubDone (g_err s)).
Proof.
  intros Hrun [[r Hr] _].
  destruct (first_error_run k chs s evs Hrun) as [[Hs [_ He]] Hf].
  assert (Hne : g_err s <> None) by exact (He (proj2 (Hs r Hr))).
  destruct Hf as [Hn|[Hw Hse]]; [contradiction|].
  split; [exact Hne|]. split; [|split; [exact Hse | exact Hw]].
  destruct Hse as [e [H|[H|[H|[H|H]]]]]; rewrite H; discriminate.
Qed.

(** X7: when eg.Wait() returns, its error is non-nil, is not the context's
    cancellation error, and is the wrapped stream error returned by one of the
    two goroutines (the first to fail). *)
Theorem iteration_first_error k chs s (evs : list (@event M)) :
  run f (init k) chs = Some (s, evs) -> both_done s ->
  g_err s <> None /\ g_err s <> Some Canceled /\ stream_error (g_err s) /\
  (g_sub s = SubDone (g_err s) \/ g_pub s = PubDone (g_err s)).
Proof. exact (first_error_done k chs s evs). Qed.

(** X8: in an iteration, subscribe receives only after sending the request on
    a stream it opened successfully, and sends the request only on such a
    stream; a message is handed over or sent to the collector only once
    publish's stream is open. *)
Theorem iteration_protocol_order k chs s (evs : list (@event M)) :
  run f (init k) chs = Some (s, evs) -> protocol_order f evs.
Proof.
  intros Hrun.
  refine (proj2 (run_from_init f (fun tr s => phase_inv f tr s /\ protocol_order f tr) k
                   _ _ chs s evs Hrun)).
  - split.
    + unfold phase_inv; simpl; split; [|split]; intros Hc; decompose [or ex] Hc; discriminate.
    + unfold protocol_order; split; [|split; [|split]]; intros pre0; intros; destruct pre0; discriminate.
  - intros tr s0 ch s1 ev [Hp Ho] Hs. split.
    + eapply phase_step; eauto.
    + eapply order_step; eauto.
Qed.

Lemma backpressure_run k chs s (evs : list (@event M)) :
  run f (init k) chs = Some (s, evs) -> backpressure_inv evs s.
Proof.
  apply (run_from_init f backpressure_inv k).
  - exists []. repeat split; auto.
  - intros. eapply backpressure_step; eauto.
Qed.

(** X9: the unbuffered channel gives backpressure: the messages handed to
    publish are the messages received, in order, except at most one held by
    subscribe; none is held while subscribe is in stream.Recv(). *)
Theorem iteration_backpressure k chs s (evs : list (@event M)) :
  run f (init k) chs = Some (s, evs) ->
  exists x, recv_of evs = (handoffs_of evs ++ x)%list /\ length x <= 1 /\
    (g_sub s = SubRecv -> x = []) /\ (forall m, g_sub s = SubHand m -> x = [m]).
Proof.
  intros Hrun. destruct (backpressure_run k chs s evs Hrun) as [x [Hr [Hl Hx]]].
  exists x. split; [exact Hr|]. split; [exact Hl|]. unfold sub_holding in Hx.
  split; [intros H | intros m H]; rewrite H in Hx;
    destruct Hx as [Hx|[r Hx]]; try discriminate Hx; exact Hx.
Qed.

(** X10: in an iteration, the messages sent to the collector are a prefix of
    those received from the target, missing at most two of the last ones
    (one whose send failed and one held by subscribe). *)
Theorem iteration_loss_bound k chs s (evs : list (@event M)) :
  run f (init k) chs = Some (s, evs) ->
  exists lost, recv_of evs = (sent_of evs ++ lost)%list /\ length lost <= 2.
Proof.
  intros Hrun.
  destruct (backpressure_run k chs s evs Hrun) as [x [Hr [Hl _]]].
  destruct (iteration_invariants f k chs s evs Hrun) as [_ [_ [Hfw _]]].
  assert (Hy : send_loss_inv evs s).
  { apply (run_from_init f send_loss_inv k) with (chs := chs); auto.
    - exists []. repeat split; auto. intros H; contradiction H; reflexivity.
    - intros. eapply send_loss_step; eauto. }
  destruct Hy as [y [Hy [Hly Hd]]].
  unfold forward_inv in Hfw.
  exists (y ++ pub_holding s ++ x)%list. split.
  - rewrite Hr, <- Hfw, Hy. rewrite <- !app_assoc. reflexivity.
  - assert (Hyp : length (y ++ pub_holding s) <= 1).
    { destruct y as [|m y].
      - simpl. unfold pub_holding. destruct (g_pub s); simpl; lia.
      - destruct (Hd ltac:(discriminate)) as [r Hp].
        unfold pub_holding. rewrite Hp. rewrite app_nil_r. exact Hly. }
    rewrite app_assoc, length_app. lia.
Qed.

(** X11: no deadlock: an iteration's goroutines have both returned exactly
    when no step is possible; until then one of them can move. *)
Theorem iteration_done_iff_stuck k chs s (evs : list (@event M)) :
  run f (init k) chs = Some (s, evs) ->
  (both_done s <-> forall ch, step f s ch = None).
Proof.
  intros Hrun. destruct (iteration_invariants f k chs s evs Hrun) as [[Hs [Hp _]] _].
  destruct s as [k0 sub0 pub0 c0 e0]; simpl in *. split.
  - intros [[r1 H1] [r2 H2]] ch. simpl in H1, H2. subst.
    destruct ch as [[r|]|[m|r]| | |[r|]|]; reflexivity.
  - intros H.
    destruct sub0; destruct pub0;
      try (split; eexists; reflexivity);
      exfalso;
      first [ pose proof (H (SchedSub None)) as Hc; simpl in Hc; discriminate Hc
            | pose proof (H (SchedRecv (inr ErrEOF))) as Hc; simpl in Hc; discriminate Hc
            | pose proof (H (SchedPub None)) as Hc; simpl in Hc; discriminate Hc
            | pose proof (H SchedHandoff) as Hc; simpl in Hc; discriminate Hc
            | destruct (Hp _ eq_refl) as [_ Hc0]; simpl in Hc0; subst c0;
              first [ pose proof (H SchedSubCancel) as Hc; simpl in Hc; discriminate Hc
                    | pose proof (H SchedPubCancel) as Hc; simpl in Hc; discriminate Hc ]
            | destruct (Hs _ eq_refl) as [_ Hc0]; simpl in Hc0; subst c0;
              first [ pose proof (H SchedSubCancel) as Hc; simpl in Hc; discriminate Hc
                    | pose proof (H SchedPubCancel) as Hc; simpl in Hc; discriminate Hc ] ].
Qed.

(** X12: in every run of the retry loop, the error each iteration logs is a
    wrapped stream error, never the context's cancellation error. *)
Theorem loop_logs_stream_errors (t : @loop_trace M) k :
  main_loop f k t ->
  forall n, exists l, iter_at n t = Some (k + n, l) /\ l <> Some Canceled /\ stream_error l.
Proof.
  intros Hml n. revert k t Hml. induction n as [|n IH]; intros k t Hml;
    inversion Hml as [k' chs s evs t' Hrun Hboth Hnext]; subst; simpl.
  - exists (g_err s). rewrite Nat.add_0_r. split; [reflexivity|].
    destruct (first_error_done k chs s evs Hrun Hboth) as [_ [Hc [Hse _]]].
    split; [exact Hc | exact Hse].
  - destruct (IH (S k) t' Hnext) as [l [Hl Hrest]]. exists l.
    rewrite Nat.add_succ_r. split; [exact Hl | exact Hrest].
Qed.

End IterationMoreFacts.

(** ** Concrete instances of the further properties *)

Lemma multiPath_SetAll_ok_witness :
  multiPath_SetAll parse_demo (mkMultiPath []) ["interfaces"; "system"; "interfaces"] =
  (mkMultiPath [mkPath "" [mkPathElem "interfaces" []] "";
                mkPath "" [mkPathElem "system" []] "";
                mkPath "" [mkPathElem "interfaces" []] ""], None).
Proof.
  apply (multiPath_SetAll_ok parse_demo (mkMultiPath []) ["interfaces"; "system"; "interfaces"]
           [mkPath "" [mkPathElem "interfaces" []] "";
            mkPath "" [mkPathElem "system" []] "";
            mkPath "" [mkPathElem "interfaces" []] ""]).
  reflexivity.
Defined.

Lemma multiPath_SetAll_first_error_witness :
  multiPath_SetAll parse_demo (mkMultiPath []) ["interfaces"; ""; "system"] =
  (mkMultiPath [mkPath "" [mkPathElem "interfaces" []] ""], Some (ErrMsg "empty path")).
Proof.
  apply (multiPath_SetAll_first_error parse_demo (mkMultiPath []) ["interfaces"] "" ["system"]
           [mkPath "" [mkPathElem "interfaces" []] ""] (ErrMsg "empty path"));
    reflexivity.
Defined.

Lemma multiPath_String_Set_witness :
  multiPath_String strpath_demo
    (Some (mkMultiPath [mkPath "" [mkPathElem "interfaces" []] "";
                        mkPath "" [mkPathElem "system" []] ""])) =
  "interfaces, system".
Proof.
  refine (eq_trans (proj1 (multiPath_String_Set parse_demo strpath_demo
            (mkMultiPath [mkPath "" [mkPathElem "interfaces" []] ""]) _ "system"
            (mkPath "" [mkPathElem "system" []] "") eq_refl eq_refl)) _).
  reflexivity.
Defined.

Lemma newTLSConfig_file_accesses_witness :
  exists l1 l2,
    fst (newTLSConfig nat fs_demo pem_demo x509_demo true false
           "client.crt" "client.key" "ca.pem") = (l1 ++ l2)%list /\
    (l1 = [] \/ (l1 = [ReadFile "ca.pem"] /\ true = true /\ false = false /\ "ca.pem" <> "")) /\
    (l2 = [] \/ (l2 = [LoadX509KeyPair "client.crt" "client.key"] /\ true = true /\
                 "client.crt" <> "" /\ "client.key" <> "")).
Proof.
  exact (newTLSConfig_file_accesses nat fs_demo pem_demo x509_demo true false
           "client.crt" "client.key" "ca.pem").
Defined.

Lemma newTLSConfig_client_cert_witness :
  exists c, snd (newTLSConfig nat fs_demo pem_demo x509_demo true false
                   "client.crt" "client.key" "ca.pem") = inr (WithTransportCredentials nat c) /\
  exists cb kb cert, fs_demo "client.crt" = Some cb /\ fs_demo "client.key" = Some kb /\
    x509_demo cb kb = Some cert /\ Certificates nat c = [cert].
Proof.
  eexists; split; [reflexivity|].
  apply (proj1 (newTLSConfig_client_cert nat fs_demo pem_demo x509_demo)
           false "client.crt" "client.key" "ca.pem");
    [discriminate | discriminate | reflexivity].
Defined.

Lemma main_startup_outcome_witness :
  snd (main_startup nat fs_demo pem_demo x509_demo (fun _ => None) flags_demo) = true /\
  fst (main_startup nat fs_demo pem_demo x509_demo (fun _ => None) flags_demo) =
  [EffDial "10.0.0.5:9339"; EffDial "127.0.0.1:6030"].
Proof.
  split; [reflexivity|].
  refine (eq_trans (proj1 (proj2 (main_startup_outcome nat fs_demo pem_demo x509_demo
                                    (fun _ => None) flags_demo)) eq_refl) _).
  reflexivity.
Defined.

Lemma iteration_first_error_witness :
  exists s (evs : list (@event nat)), run flags_demo (init 0) eof_schedule = Some (s, evs) /\
    g_err s = Some (Errorf "error from Subscribe.Recv: %s" ErrEOF) /\
    g_err s <> Some Canceled.
Proof.
  eexists; eexists; split; [reflexivity|]. split; [reflexivity|].
  refine (proj1 (proj2 (iteration_first_error flags_demo 0 eof_schedule _ _ eq_refl _))).
  split; eexists; reflexivity.
Defined.

Lemma iteration_protocol_order_witness :
  exists s (evs : list (@event nat)), run flags_demo (init 0) relay_schedule = Some (s, evs) /\
    protocol_order flags_demo evs.
Proof.
  eexists; eexists; split; [reflexivity|].
  exact (iteration_protocol_order flags_demo 0 relay_schedule _ _ eq_refl).
Defined.

Lemma iteration_backpressure_witness :
  exists s (evs : list (@event nat)), run flags_demo (init 0) loss_schedule = Some (s, evs) /\
    g_sub s = SubHand 2 /\ handoffs_of evs = [1] /\
    exists x, recv_of evs = (handoffs_of evs ++ x)%list /\ x = [2].
Proof.
  eexists; eexists; split; [reflexivity|]. split; [reflexivity|]. split; [reflexivity|].
  destruct (iteration_backpressure flags_demo 0 loss_schedule _ _ eq_refl)
    as [x [Hr [_ [_ Hm]]]].
  exists x. split; [exact Hr | exact (Hm 2 eq_refl)].
Defined.

Lemma iteration_loss_bound_witness :
  exists s (evs : list (@event nat)), run flags_demo (init 0) loss_schedule = Some (s, evs) /\
    recv_of evs = [1; 2] /\ sent_of evs = [] /\
    exists lost, recv_of evs = (sent_of evs ++ lost)%list /\ length lost <= 2.
Proof.
  eexists; eexists; split; [reflexivity|]. split; [reflexivity|]. split; [reflexivity|].
  exact (iteration_loss_bound flags_demo 0 loss_schedule _ _ eq_refl).
Defined.

Lemma iteration_done_iff_stuck_witness :
  exists s (evs : list (@event nat)), run flags_demo (init 0) eof_schedule = Some (s, evs) /\
    forall ch, step flags_demo s ch = None.
Proof.
  eexists; eexists; split; [reflexivity|].
  apply (proj1 (iteration_done_iff_stuck flags_demo 0 eof_schedule _ _ eq_refl)).
  split; eexists; reflexivity.
Defined.

Lemma loop_logs_stream_errors_witness :
  exists l, iter_at 2 (@restart_trace nat flags_demo 0) = Some (2, l) /\
    l <> Some Canceled /\ stream_error l.
Proof.
  exact (loop_logs_stream_errors flags_demo (@restart_trace nat flags_demo 0) 0
           (restart_trace_loop flags_demo 0) 2).
Defined.
